(** * GemmTunableOp: a shallow embedding of aten/src/ATen/cuda/tunable/TunableGemm.h

    The header declares the GEMM instance of the tunable-operation framework:
    the reference candidate [DefaultGemmOp], the zero test [IsZero] on the
    accumulation coefficient, the type names used in signatures, and the class
    [GemmTunableOp] with its constructor, [PreTuning], [PostTuning] and
    [Signature].

    The header only compiles in the configuration USE_ROCM with
    ROCM_VERSION >= 50700 (the braces closing the version checks sit outside
    the preprocessor conditionals), and that is the configuration embedded
    here.  What the header takes from other headers of the repository
    (GemmCommon.h, TunableOp.h, the caching allocator, the BLAS back ends) is a
    parameter of the development. *)

From Stdlib Require Import ZArith Lia Bool String Ascii List.
From Stdlib Require Import SpecFloat.
From stdpp Require Import base option gmap strings list fin_maps.

Local Open Scope string_scope.
Local Open Scope Z_scope.

(** ** Tuning status *)

(** The enumerators of [TuningStatus] that this header uses. *)
Inductive TuningStatus : Type :=
  | OK
  | FAIL.

(** ** Element types and their values *)

(** The template argument [T].  The six constructors with a name are the types
    with an explicit [TypeName] specialization; [Other id sz] stands for any
    other type, told apart by [id], of [sizeof] equal to [sz]. *)
Inductive ElemType : Type :=
  | Float
  | Double
  | BFloat16
  | Half
  | ComplexFloat
  | ComplexDouble
  | Other (id : nat) (sz : Z).

Definition sizeof (T : ElemType) : Z :=
  match T with
  | Float => 4
  | Double => 8
  | BFloat16 => 2
  | Half => 2
  | ComplexFloat => 8
  | ComplexDouble => 16
  | Other _ sz => sz
  end.

(** A value of an element type, as its bits.  [float] and [double] are IEEE 754
    binary32 and binary64 patterns; [BFloat16] and [Half] are the structs with
    the one field [x : uint16_t]; a complex number is its real and imaginary
    part.  For a type outside the six, the only thing the header does with a
    value is compare it with [0.0f]: [VOther z] carries the outcome [z] of that
    comparison. *)
Inductive Value : Type :=
  | VFloat (bits : Z)
  | VDouble (bits : Z)
  | VBFloat16 (x : Z)
  | VHalf (x : Z)
  | VComplexFloat (re im : Z)
  | VComplexDouble (re im : Z)
  | VOther (eq_zero : bool).

(** *** Reading a bit pattern as a floating-point number *)

(** The field of [w] bits that starts at bit [lo]. *)
Definition bit_field (bits lo w : Z) : Z :=
  Z.land (Z.shiftr bits lo) (Z.ones w).

(** An IEEE 754 interchange pattern with [ebits] exponent bits and [mbits]
    fraction bits, read as the number it encodes. *)
Definition decode (ebits mbits bits : Z) : spec_float :=
  let s := Z.testbit bits (ebits + mbits) in
  let e := bit_field bits mbits ebits in
  let f := bit_field bits 0 mbits in
  let bias := Z.ones (ebits - 1) in
  if e =? 0 then
    match f with
    | Zpos p => S754_finite s p (1 - bias - mbits)
    | _ => S754_zero s
    end
  else if e =? Z.ones ebits then
    match f with
    | Zpos _ => S754_nan
    | _ => S754_infinity s
    end
  else
    match Z.lor f (Z.shiftl 1 mbits) with
    | Zpos p => S754_finite s p (e - bias - mbits)
    | _ => S754_nan
    end.

Definition float_of_bits : Z -> spec_float := decode 8 23.
Definition double_of_bits : Z -> spec_float := decode 11 52.
Definition bfloat16_of_bits : Z -> spec_float := decode 8 7.
Definition half_of_bits : Z -> spec_float := decode 5 10.

(** The literals [0.0f] and [0.0]. *)
Definition zero_literal : spec_float := S754_zero false.

(** [operator==] of [c10::complex<T>] against a scalar: the real part equals
    the scalar and the imaginary part equals [T()]. *)
Definition complex_eq_scalar (re im rhs : spec_float) : bool :=
  SFeqb re rhs && SFeqb im zero_literal.

(** ** IsZero *)

(** The primary template and its four specializations; overload resolution is
    the match on the constructor. *)
Definition IsZero (v : Value) : bool :=
  match v with
  | VFloat bits => SFeqb (float_of_bits bits) zero_literal
  | VDouble bits => SFeqb (double_of_bits bits) zero_literal
  | VBFloat16 x => x =? 0
  | VHalf x => SFeqb (half_of_bits x) zero_literal
  | VComplexDouble re im =>
      complex_eq_scalar (double_of_bits re) (double_of_bits im) zero_literal
  | VComplexFloat re im =>
      complex_eq_scalar (float_of_bits re) (float_of_bits im) zero_literal
  | VOther eq_zero => eq_zero
  end.

(** The number a value stands for is zero: the reading of "numerically equal to
    zero" that [IsZero] is compared with.  Both signed zeros are zero. *)
Definition is_zero_number (f : spec_float) : bool :=
  match f with
  | S754_zero _ => true
  | _ => false
  end.

Definition numerically_zero (v : Value) : bool :=
  match v with
  | VFloat bits => is_zero_number (float_of_bits bits)
  | VDouble bits => is_zero_number (double_of_bits bits)
  | VBFloat16 x => is_zero_number (bfloat16_of_bits x)
  | VHalf x => is_zero_number (half_of_bits x)
  | VComplexFloat re im =>
      is_zero_number (float_of_bits re) && is_zero_number (float_of_bits im)
  | VComplexDouble re im =>
      is_zero_number (double_of_bits re) && is_zero_number (double_of_bits im)
  | VOther eq_zero => eq_zero
  end.

(** The value-initialised [T{}]. *)
Definition value_init (T : ElemType) : Value :=
  match T with
  | Float => VFloat 0
  | Double => VDouble 0
  | BFloat16 => VBFloat16 0
  | Half => VHalf 0
  | ComplexFloat => VComplexFloat 0 0
  | ComplexDouble => VComplexDouble 0 0
  | Other _ _ => VOther true
  end.

(** ** TypeName *)

Definition TypeName (T : ElemType) : string :=
  match T with
  | Float => "float"
  | Double => "double"
  | BFloat16 => "BFloat16"
  | Half => "Half"
  | ComplexDouble => "c10::complex<double>"
  | ComplexFloat => "c10::complex<float>"
  | Other _ _ => "unknown"
  end.

(** [T] has an explicit [TypeName] specialization. *)
Definition has_TypeName_specialization (T : ElemType) : bool :=
  match T with
  | Other _ _ => false
  | _ => true
  end.

(** ** Operation parameters *)

(** Modelled from the spec: the transpose/layout flag of an operand, a template
    argument of [GemmTunableOp].  The enumeration [BlasOp] is declared in
    GemmCommon.h, which is not under src/. *)
Inductive BlasOp : Type :=
  | NoTrans
  | Trans.

(** [GemmParams<T>], with the fields [DefaultGemmOp] reads.  Dimensions and
    leading dimensions are 64-bit integers, [a], [b] and [c] device addresses. *)
Record GemmParams : Type := mkGemmParams {
  transa : ascii;
  transb : ascii;
  m : Z;
  n : Z;
  k : Z;
  alpha : Value;
  a : Z;
  lda : Z;
  b : Z;
  ldb : Z;
  beta : Value;
  c : Z;
  ldc : Z
}.

(** The assignment [params->c = ptr]. *)
Definition set_c (p : GemmParams) (ptr : Z) : GemmParams :=
  mkGemmParams (transa p) (transb p) (m p) (n p) (k p) (alpha p)
    (a p) (lda p) (b p) (ldb p) (beta p) ptr (ldc p).

(** The object [new GemmParams<T>()] creates: every field value-initialised. *)
Definition GemmParams_init (T : ElemType) : GemmParams :=
  mkGemmParams "000"%char "000"%char 0 0 0 (value_init T)
    0 0 0 0 (value_init T) 0 0.

(** ** Device memory and candidates *)

(** Device memory: the contents of the buffer that starts at an address. *)
Definition DevMem : Type := gmap Z (list Z).

(** A candidate implementation: it reads the parameters it is handed (a pointer
    to constant [GemmParams<T>] in the source) and the device memory, and
    returns a status. *)
Definition Callable : Type := GemmParams -> DevMem -> TuningStatus * DevMem.

(** ** 64-bit arithmetic *)

Definition int64_wrap (x : Z) : Z := (x + 2 ^ 63) mod 2 ^ 64 - 2 ^ 63.
Definition size_t_wrap (x : Z) : Z := x mod 2 ^ 64.

(** ** Host objects and device blocks *)

(** [params_store] holds the [GemmParams] objects alive on the host, by
    address; [device_blocks] the blocks of the device caching allocator that
    are in use, by base address, with the size requested for each. *)
Record Heap : Type := mkHeap {
  params_store : gmap Z GemmParams;
  device_blocks : gmap Z Z
}.

(** Where [operator new] places an object: some address that holds none. *)
Record HostAllocator : Type := mkHostAllocator {
  new_address : gmap Z GemmParams -> Z;
  new_address_fresh : forall store, store !! new_address store = None
}.

(** Where the device caching allocator places a block of [nbytes] bytes: some
    address at which no block in use starts.  [PreTuning] names the allocator
    [c10::cuda::CUDACachingAllocator] and [PostTuning] names it
    [c10::hip::HIPCachingAllocator]: in the one configuration in which the
    header compiles they are the same allocator. *)
Record DeviceAllocator : Type := mkDeviceAllocator {
  alloc_address : gmap Z Z -> Z -> Z;
  alloc_address_fresh :
    forall blocks nbytes, blocks !! alloc_address blocks nbytes = None
}.

(** Statements that read and update the heap and may fail (a null or dangling
    pointer). *)
Definition M (A : Type) : Type := Heap -> option (A * Heap).

#[global] Instance M_ret : MRet M := fun A x h => Some (x, h).
#[global] Instance M_bind : MBind M := fun A B f ma h =>
  match ma h with
  | Some (x, h') => f x h'
  | None => None
  end.

(** [*ptr] *)
Definition load (ptr : Z) : M GemmParams := fun h =>
  match params_store h !! ptr with
  | Some p => Some (p, h)
  | None => None
  end.

(** [*ptr = p] *)
Definition store (ptr : Z) (p : GemmParams) : M unit := fun h =>
  match params_store h !! ptr with
  | Some _ => Some (tt, mkHeap (<[ptr := p]> (params_store h)) (device_blocks h))
  | None => None
  end.

(** [new GemmParams<T>()] *)
Definition new_GemmParams (host : HostAllocator) (T : ElemType) : M Z := fun h =>
  let ptr := new_address host (params_store h) in
  Some (ptr, mkHeap (<[ptr := GemmParams_init T]> (params_store h)) (device_blocks h)).

(** [delete ptr] *)
Definition delete_GemmParams (ptr : Z) : M unit := fun h =>
  match params_store h !! ptr with
  | Some _ => Some (tt, mkHeap (delete ptr (params_store h)) (device_blocks h))
  | None => None
  end.

(** [raw_alloc(nbytes)] *)
Definition raw_alloc (dev : DeviceAllocator) (nbytes : Z) : M Z := fun h =>
  let ptr := alloc_address dev (device_blocks h) nbytes in
  Some (ptr, mkHeap (params_store h) (<[ptr := nbytes]> (device_blocks h))).

(** [raw_delete(ptr)] *)
Definition raw_delete (ptr : Z) : M unit := fun h =>
  match device_blocks h !! ptr with
  | Some _ => Some (tt, mkHeap (params_store h) (delete ptr (device_blocks h)))
  | None => None
  end.

(** ** PreTuning and PostTuning *)

(** The argument of [raw_alloc] in [PreTuning]:
    [proxy->m * proxy->ldc * sizeof(T)], a product of two [int64_t] converted
    to [size_t] by the multiplication with [sizeof(T)]. *)
Definition scratch_nbytes (T : ElemType) (p : GemmParams) : Z :=
  size_t_wrap (int64_wrap (m p * ldc p) * sizeof T).

Definition PreTuning (host : HostAllocator) (dev : DeviceAllocator)
    (T : ElemType) (params : Z) : M Z :=
  p ← load params;
  if negb (IsZero (beta p)) then
    proxy ← new_GemmParams host T;
    src ← load params;
    store proxy src;;
    q ← load proxy;
    scratch ← raw_alloc dev (scratch_nbytes T q);
    q ← load proxy;
    store proxy (set_c q scratch);;
    mret proxy
  else
    mret params.

Definition PostTuning (params : Z) : M unit :=
  p ← load params;
  if negb (IsZero (beta p)) then
    raw_delete (c p);;
    delete_GemmParams params
  else
    mret tt.

(** ** Strings *)

(** [c10::str(args...)]: the arguments printed one after the other. *)
Definition c10_str (args : list string) : string :=
  foldr String.append "" args.

(** ** The candidate registry and the validators *)

(** What [RegisterValidator] stores under a key: the function that produces
    the current value and the function that checks a stored value. *)
Record Validator : Type := mkValidator {
  get_value : unit -> string;
  validate : string -> TuningStatus
}.

(** Modelled from the spec: [TunableOp::RegisterOp] is declared in TunableOp.h,
    which is not under src/.  A candidate is inserted under its name, after the
    candidates registered before it; a name registered twice is a fatal
    error. *)
Definition RegisterOp (name : string) (op : Callable)
    (ops : list (string * Callable)) : option (list (string * Callable)) :=
  if decide (name ∈ ops.*1) then None else Some (ops ++ [(name, op)])%list.

(** The loop [for (auto&& [name, op] : candidates) this->RegisterOp(name, op)]. *)
Fixpoint RegisterOps (candidates : list (string * Callable))
    (ops : list (string * Callable)) : option (list (string * Callable)) :=
  match candidates with
  | [] => Some ops
  | (name, op) :: rest =>
      ops' ← RegisterOp name op ops;
      RegisterOps rest ops'
  end.

(** Modelled from the spec: the candidates in registration order, and the
    first of them, the reference the others are checked against. *)
Definition listCandidates (ops : list (string * Callable)) : list string := ops.*1.

Definition reference_candidate (ops : list (string * Callable)) : option string :=
  head (listCandidates ops).

(** An object of class [GemmTunableOp<T, ALayout, BLayout>]: its template
    arguments and the candidates of its base class. *)
Record GemmTunableOp : Type := mkGemmTunableOp {
  elem_type : ElemType;
  a_layout : BlasOp;
  b_layout : BlasOp;
  ops_ : list (string * Callable)
}.

Definition is_complex (T : ElemType) : bool :=
  match T with
  | ComplexFloat | ComplexDouble => true
  | _ => false
  end.

Section TunableGemm.

(** *** What the header takes from the rest of the repository *)

(** [BlasOpToString] of GemmCommon.h. *)
Variable BlasOpToString : BlasOp -> string.

(** [at::cuda::blas::gemm_internal<T>], by its effect on device memory. *)
Variable gemm_internal :
  ascii -> ascii -> Z -> Z -> Z -> Value -> Z -> Z -> Z -> Z -> Value -> Z -> Z ->
  DevMem -> DevMem.

(** The candidates of the two back ends. *)
Variable GetRocBlasGemmTypeStringAndOps : ElemType -> list (string * Callable).
Variable GetHipBlasLtGemmTypeStringAndOps :
  ElemType -> BlasOp -> BlasOp -> list (string * Callable).

(** The version macros, as the preprocessor expands and stringifies them. *)
Variable ROCM_BUILD_INFO : string.
Variables ROCBLAS_VERSION_MAJOR ROCBLAS_VERSION_MINOR
          ROCBLAS_VERSION_PATCH ROCBLAS_VERSION_TWEAK : string.
Variables HIPBLASLT_VERSION_MAJOR HIPBLASLT_VERSION_MINOR
          HIPBLASLT_VERSION_PATCH HIPBLASLT_VERSION_TWEAK : string.

(** [TuningResultsValidator::RegisterValidator(key, get, validate)], by its
    effect on the validators of the tuning context. *)
Variable RegisterValidator :
  string -> (unit -> string) -> (string -> TuningStatus) ->
  gmap string Validator -> gmap string Validator.

(** *** DefaultGemmOp *)

Definition DefaultGemmOp : Callable := fun params mem =>
  (OK,
   gemm_internal
     (transa params) (transb params)
     (m params) (n params) (k params)
     (alpha params)
     (a params) (lda params)
     (b params) (ldb params)
     (beta params)
     (c params) (ldc params)
     mem).

(** *** The constructor *)

(** The two lambdas registered for a version: [[version]() { return version; }]
    and [[version](auto&& k) { return version == k ? OK : FAIL; }]. *)
Definition version_getter (version : string) : unit -> string :=
  fun _ => version.

Definition version_validator (version : string) : string -> TuningStatus :=
  fun k => if String.eqb version k then OK else FAIL.

Definition rocm_version : string := ROCM_BUILD_INFO.

Definition rocblas_version : string :=
  c10_str [ROCBLAS_VERSION_MAJOR; "."; ROCBLAS_VERSION_MINOR; ".";
           ROCBLAS_VERSION_PATCH; "-"; ROCBLAS_VERSION_TWEAK].

Definition hipblaslt_version : string :=
  c10_str [HIPBLASLT_VERSION_MAJOR; "."; HIPBLASLT_VERSION_MINOR; ".";
           HIPBLASLT_VERSION_PATCH; "-"; HIPBLASLT_VERSION_TWEAK].

(** [if (validators.find(key) == validators.end()) RegisterValidator(key, ...)]:
    the test reads [validators], the copy taken at the start of the
    constructor; the registration updates [ctx], the validators of the
    tuning context. *)
Definition register_version_if_absent (validators : gmap string Validator)
    (key version : string) (ctx : gmap string Validator) : gmap string Validator :=
  match validators !! key with
  | None =>
      RegisterValidator key (version_getter version) (version_validator version) ctx
  | Some _ => ctx
  end.

(** [GemmTunableOp()], from the validators of the tuning context to the new
    object and the validators afterwards; [None] when [RegisterOp] fails. *)
Definition GemmTunableOp_ctor (T : ElemType) (ALayout BLayout : BlasOp)
    (ctx : gmap string Validator) : option (GemmTunableOp * gmap string Validator) :=
  ops ← RegisterOp "Default" DefaultGemmOp [];
  let validators := ctx in
  ops ← RegisterOps (GetRocBlasGemmTypeStringAndOps T) ops;
  let ctx := register_version_if_absent validators "ROCM_VERSION" rocm_version ctx in
  let ctx := register_version_if_absent validators "ROCBLAS_VERSION" rocblas_version ctx in
  ops ← (if negb (is_complex T)
         then RegisterOps (GetHipBlasLtGemmTypeStringAndOps T ALayout BLayout) ops
         else Some ops);
  let ctx :=
    register_version_if_absent validators "HIPBLASLT_VERSION" hipblaslt_version ctx in
  Some (mkGemmTunableOp T ALayout BLayout ops, ctx).

(** *** Signature *)

Definition Signature (op : GemmTunableOp) : string :=
  c10_str ["GemmTunableOp_"; TypeName (elem_type op); "_";
           BlasOpToString (a_layout op); BlasOpToString (b_layout op)].

(** *** What the constructor registers *)

(** The candidates the constructor registers, in the order of its calls of
    [RegisterOp]. *)
Definition candidates_of (T : ElemType) (ALayout BLayout : BlasOp)
    : list (string * Callable) :=
  ("Default", DefaultGemmOp)
    :: (GetRocBlasGemmTypeStringAndOps T
        ++ (if negb (is_complex T)
            then GetHipBlasLtGemmTypeStringAndOps T ALayout BLayout
            else []))%list.

(** The keys of the three version checks with the version of each. *)
Definition version_validators : list (string * string) :=
  [("ROCM_VERSION", rocm_version);
   ("ROCBLAS_VERSION", rocblas_version);
   ("HIPBLASLT_VERSION", hipblaslt_version)].

(** The validators after the three version checks of the constructor. *)
Definition validators_after (ctx : gmap string Validator) : gmap string Validator :=
  foldl (fun ctx' kv => register_version_if_absent ctx kv.1 kv.2 ctx')
    ctx version_validators.

End TunableGemm.

(** The signature string obtained for a call of [op] on the parameters [p]:
    [Signature()] has no argument and reads no member that depends on a call,
    so it is the signature of [op]. *)
Definition call_signature (BlasOpToString : BlasOp -> string)
    (op : GemmTunableOp) (p : GemmParams) : string :=
  Signature BlasOpToString op.



(** ** What PreTuning and PostTuning add to the heap and take from it *)

(** The blocks in use in [h'] and not in [h]: those allocated on the way from
    [h] to [h'], or freed on the way from [h'] to [h]. *)
Definition blocks_only_in (h' h : Heap) : gset Z :=
  dom (device_blocks h') ∖ dom (device_blocks h).

(** The objects alive in [h'] and not in [h]. *)
Definition objects_only_in (h' h : Heap) : gset Z :=
  dom (params_store h') ∖ dom (params_store h).

(** ** The output matrix *)

(** Modelled from the spec: the output of [at::cuda::blas::gemm_internal]
    (CUDABlas.h, not under src/), the m-by-n matrix laid out with leading
    dimension [ldc].  In the BLAS layout the element of row [i] and column [j]
    is the element of index [i + j * ldc] of the buffer at [c], and [ldc] is at
    least [max 1 m]. *)
Definition output_index (p : GemmParams) (i j : Z) : Z := i + j * ldc p.

Definition well_formed_output (p : GemmParams) : Prop :=
  0 <= m p /\ 0 <= n p /\ 1 <= ldc p /\ m p <= ldc p.

(** A buffer of [nbytes] bytes holds every element of the output of [p]. *)
Definition holds_output (T : ElemType) (nbytes : Z) (p : GemmParams) : Prop :=
  forall i j : Z,
    0 <= i < m p -> 0 <= j < n p ->
    (output_index p i j + 1) * sizeof T <= nbytes.

(** The bytes from the first to the last element of the output of [p]. *)
Definition output_nbytes (T : ElemType) (p : GemmParams) : Z :=
  if (m p =? 0) || (n p =? 0) then 0
  else (output_index p (m p - 1) (n p - 1) + 1) * sizeof T.

(** ** An environment to run the definitions in *)

(** A rendering of the two layouts by one letter each, to run the definitions
    on examples. *)
Definition BlasOpToString_letter (op : BlasOp) : string :=
  match op with
  | NoTrans => "N"
  | Trans => "T"
  end.

(** The parameters of a float product of a 1-by-3 and a 3-by-2 matrix that is
    accumulated into its output: [beta] is 1.0f, and the output is the 1-by-2
    matrix of leading dimension 1. *)
Definition row_times_matrix : GemmParams :=
  mkGemmParams "n"%char "n"%char 1 2 3 (VFloat 0x3F800000)
    4096 1 8192 3 (VFloat 0x3F800000) 12288 1.

(** [row_times_matrix] with one more row in the output: [m] is 2, and so are
    the leading dimensions that go with it. *)
Definition two_rows_times_matrix : GemmParams :=
  mkGemmParams "n"%char "n"%char 2 2 3 (VFloat 0x3F800000)
    4096 2 8192 3 (VFloat 0x3F800000) 12288 2.


Lemma fresh_address_unused {V : Type} (store : gmap Z V) :
  store !! fresh (dom store) = None.
Proof. apply not_elem_of_dom, is_fresh. Qed.

(** Allocators that hand out an address not in use, whatever the size. *)
Definition fresh_host : HostAllocator :=
  mkHostAllocator (fun store => fresh (dom store)) fresh_address_unused.

Definition fresh_device : DeviceAllocator :=
  mkDeviceAllocator (fun blocks _ => fresh (dom blocks))
    (fun blocks _ => fresh_address_unused blocks).


(** A heap with the caller's parameters at address 64 and the caller's output
    buffer, of 8 bytes, in use at the address the parameters give. *)
Definition caller_heap (p : GemmParams) : Heap :=
  mkHeap {[64 := p]} {[c p := 8]}.

(** A GEMM that leaves the dimensions of the product in the output buffer. *)
Definition gemm_internal_sample :
    ascii -> ascii -> Z -> Z -> Z -> Value -> Z -> Z -> Z -> Z -> Value -> Z -> Z ->
    DevMem -> DevMem :=
  fun _ _ rows cols _ _ _ _ _ _ _ out _ mem => <[out := [rows; cols]]> mem.

Definition rocblas_sample (T : ElemType) : list (string * Callable) :=
  [("Gemm_Rocblas_0", DefaultGemmOp gemm_internal_sample)].

Definition hipblaslt_sample (T : ElemType) (ALayout BLayout : BlasOp)
    : list (string * Callable) :=
  [("Gemm_Hipblaslt_" +:+ BlasOpToString_letter ALayout
      +:+ BlasOpToString_letter BLayout +:+ "_0",
    DefaultGemmOp gemm_internal_sample)].

(** A [RegisterValidator] that replaces the validator of a key that has one:
    with it, a registration the constructor should not make would show. *)
Definition RegisterValidator_overwrite (key : string) (get : unit -> string)
    (check : string -> TuningStatus) (ctx : gmap string Validator)
    : gmap string Validator :=
  <[key := mkValidator get check]> ctx.

Definition sample_ctor :
    ElemType -> BlasOp -> BlasOp -> gmap string Validator ->
    option (GemmTunableOp * gmap string Validator) :=
  GemmTunableOp_ctor gemm_internal_sample rocblas_sample hipblaslt_sample
    "6.0.32830-d62f6a171"
    "4" "0" "0" "88df9726-dirty"
    "0" "6" "0" "ff093ca4"
    RegisterValidator_overwrite.

(** A validator for the ROCm version registered by an earlier build. *)
Definition earlier_rocm_validator : Validator :=
  mkValidator (version_getter "5.7.1") (version_validator "5.7.1").

(** A provider of hipBLASLt candidates whose candidate is called "Default":
    a constructor that registered it would fail. *)
Definition hipblaslt_clash (T : ElemType) (ALayout BLayout : BlasOp)
    : list (string * Callable) :=
  [("Default", DefaultGemmOp gemm_internal_sample)].

(** * The copy-out of an all-gather: a shallow embedding of src/unnamed/part_000 *)

Module AllGatherCopyOut.

Definition BYTES_PER_THREAD : Z := 16.

Definition MAX_NUM_THREADS : Z := 1024.

Definition MIN_NUM_THREADS : Z := 128.

Definition WARP_SIZE : Z := 32.

(** [divUp(a, b)], on [int64_t]: the sum wraps around and the division
    truncates towards zero. *)
Definition divUp (a b : Z) : Z := Z.quot (int64_wrap (a + b - 1)) b.

(** [isAligned(ptr, alignment)], on the address as an unsigned integer. *)
Definition isAligned (ptr alignment : Z) : bool := ptr mod alignment =? 0.

(** The number of threads of a block, as [fsdpAllGatherCopyOut] derives it
    from the mean shard size. *)
Definition pick_blockSize (meanShardDim : Z) : Z :=
  let blockSize := divUp meanShardDim BYTES_PER_THREAD in
  let blockSize := int64_wrap (divUp blockSize WARP_SIZE * WARP_SIZE) in
  Z.min (Z.max blockSize MIN_NUM_THREADS) MAX_NUM_THREADS.

(** ** The shard sizes (lines 155-173) *)

(** What the function reads of an [at::Tensor]; [numel] and [element_size]
    are [int64_t]. *)
Record Tensor : Type := mkTensor {
  numel : Z;
  element_size : Z;
  data_ptr : Z;
  device : Z;
  is_cuda : bool;
  is_non_overlapping_and_dense : bool
}.

(** The loop over [params] from index [i] on: the checks, that stop the
    function when they fail, and the three [push_back]. *)
Fixpoint shard_dims_loop (params : list Tensor) (device_ worldSize : Z) (i : nat)
    (paramPtrs shardDims dimCumSums : list Z)
    : option (list Z * list Z * list Z) :=
  match params with
  | [] => Some (paramPtrs, shardDims, dimCumSums)
  | param :: rest =>
      if negb (is_non_overlapping_and_dense param) then None
      else if negb (device param =? device_) then None
      else if negb (0 <? numel param) then None
      else if negb (Z.rem (numel param) worldSize =? 0) then None
      else
        let shardDim :=
          Z.quot (int64_wrap (numel param * element_size param)) worldSize in
        prev ← dimCumSums !! i;
        shard_dims_loop rest device_ worldSize (S i)
          (paramPtrs ++ [data_ptr param])
          (shardDims ++ [shardDim])
          (dimCumSums ++ [int64_wrap (prev + shardDim)])
  end.

(** From the start of the function to the check of the total size. *)
Definition shard_dims (params : list Tensor) (allGatherRes : Tensor)
    (worldSize : Z) : option (list Z * list Z * list Z) :=
  let device_ := device allGatherRes in
  let totalSize := int64_wrap (numel allGatherRes * element_size allGatherRes) in
  if negb (is_cuda allGatherRes) then None
  else if negb (is_non_overlapping_and_dense allGatherRes) then None
  else
    '(paramPtrs, shardDims, dimCumSums) ←
      shard_dims_loop params device_ worldSize 0 [] [] [0];
    back ← last dimCumSums;
    if negb (int64_wrap (back * worldSize) =? totalSize) then None
    else Some (paramPtrs, shardDims, dimCumSums).

(** The sum of a list of sizes. *)
Definition total (sizes : list Z) : Z := foldr Z.add 0 sizes.

(** The byte size of a tensor. *)
Definition nbytes (t : Tensor) : Z := numel t * element_size t.

(** The tensors have elements of a positive size and take less than 2^62
    bytes together. *)
Definition sizes_in_range (ts : list Tensor) : Prop :=
  Forall (fun t => 0 < element_size t /\ 0 <= numel t) ts /\
  total (nbytes <$> ts) < 2 ^ 62.

(** ** The blocks of each parameter (lines 194-204) *)

(** The loop over the parameters from [paramIdx] on, [perBlock] being
    [blockSize * BYTES_PER_THREAD * iterFactor].  [insert] takes its count as
    an unsigned number and fails on the huge one a negative [numBlocks]
    becomes. *)
Fixpoint block_tables_loop (shardDims : list Z) (paramIdx perBlock : Z)
    (blockOffsetToParamIdx blockCumSums : list Z) : option (list Z * list Z) :=
  match shardDims with
  | [] => Some (blockOffsetToParamIdx, blockCumSums)
  | shardDim :: rest =>
      let numBlocks := divUp shardDim perBlock in
      if numBlocks <? 0 then None
      else
        back ← last blockCumSums;
        block_tables_loop rest (int64_wrap (paramIdx + 1)) perBlock
          (blockOffsetToParamIdx ++ replicate (Z.to_nat numBlocks) paramIdx)
          (blockCumSums ++ [int64_wrap (back + numBlocks)])
  end.

Definition block_tables (shardDims : list Z) (blockSize iterFactor : Z)
    : option (list Z * list Z) :=
  block_tables_loop shardDims 0
    (int64_wrap (int64_wrap (blockSize * BYTES_PER_THREAD) * iterFactor)) [] [0].

(** What the kernel needs of the two tables for [count] parameters: the block
    of offset [o] belongs to a parameter [i] whose range of blocks, from
    [blockCumSums[i]] to [blockCumSums[i + 1]], holds [o]. *)
Definition tables_agree (count : nat) (table cums : list Z) : Prop :=
  length cums = S count /\
  cums !! count = Some (Z.of_nat (length table)) /\
  forall (o : nat) (idx : Z),
    table !! o = Some idx ->
    exists (i : nat) (lo hi : Z),
      idx = Z.of_nat i /\ (i < count)%nat /\
      cums !! i = Some lo /\ cums !! S i = Some hi /\
      lo <= Z.of_nat o < hi.

(** ** The kernel (lines 46-103) *)

(** The loop [for (size_t i = begin; i < end; i += stride)]: the values of
    [i] at which the body runs.  [fuel] bounds the number of iterations. *)
Fixpoint vector_loop (fuel : nat) (i end_ stride : Z) : list Z :=
  match fuel with
  | O => []
  | S fuel' =>
      if i <? size_t_wrap end_
      then i :: vector_loop fuel' (size_t_wrap (i + stride)) end_ stride
      else []
  end.

(** The offset of the first byte of the shard that [BYTES_PER_THREAD] bytes
    can be stored at in one piece. *)
Definition alignOff_of (dstOff : Z) : Z :=
  int64_wrap
    (int64_wrap (divUp dstOff BYTES_PER_THREAD * BYTES_PER_THREAD) - dstOff).

(** The offset after the last whole piece of [BYTES_PER_THREAD] bytes. *)
Definition end_of (shardLen alignOff : Z) : Z :=
  int64_wrap
    (alignOff
     + int64_wrap
         (Z.quot (int64_wrap (shardLen - alignOff)) BYTES_PER_THREAD
          * BYTES_PER_THREAD)).

(** The offsets at which the thread [localTid] of a group of [groupSize]
    threads stores 16 bytes in one piece: the values of [i] in its loop. *)
Definition vector_starts (fuel : nat) (shardLen dstOff groupSize localTid : Z)
    : list Z :=
  let alignOff := alignOff_of dstOff in
  let begin_ := int64_wrap (alignOff + int64_wrap (localTid * BYTES_PER_THREAD)) in
  let end_ := end_of shardLen alignOff in
  let stride := int64_wrap (groupSize * BYTES_PER_THREAD) in
  vector_loop fuel (size_t_wrap begin_) end_ stride.


(** The sizes of a shard and of the group of threads that copies it. *)
Definition shard_in_range (shardLen dstOff groupSize : Z) : Prop :=
  0 <= shardLen < 2 ^ 50 /\ 0 <= dstOff < 2 ^ 62 /\ 16 <= groupSize < 2 ^ 40.

(** ** The loops that search a factor (lines 186-192 and 209-214) *)

(** The bound of both loops, [maxActiveBlocks * smOverSubFactor], is the
    [double] 32 * 108 * 1.75 = 6048.0.  The left side of the comparison is an
    [int64_t] converted to [double]; the conversion keeps the order and is
    exact up to 2^53, so the comparison holds exactly when the integer is
    above 6048. *)
Definition max_blocks : Z := 6048.

(** [while (divUp(totalSize, blockSize * BYTES_PER_THREAD * iterFactor) > ...)
    iterFactor += 1], from the current [iterFactor]; [None] when the fuel runs
    out. *)
Fixpoint iterFactor_loop (fuel : nat) (totalSize blockSize iterFactor : Z)
    : option Z :=
  match fuel with
  | O => None
  | S fuel' =>
      if max_blocks
           <? divUp totalSize
                (int64_wrap (int64_wrap (blockSize * BYTES_PER_THREAD) * iterFactor))
      then iterFactor_loop fuel' totalSize blockSize (int64_wrap (iterFactor + 1))
      else Some iterFactor
  end.

(** [while (numBlocks * (worldSize / ranksPerBlock) > ... &&
    ranksPerBlock < worldSize) ++ranksPerBlock], from the current
    [ranksPerBlock]. *)
Fixpoint ranksPerBlock_loop (fuel : nat) (numBlocks worldSize ranksPerBlock : Z)
    : option Z :=
  match fuel with
  | O => None
  | S fuel' =>
      if (max_blocks <? int64_wrap (numBlocks * Z.quot worldSize ranksPerBlock))
         && (ranksPerBlock <? worldSize)
      then ranksPerBlock_loop fuel' numBlocks worldSize (int64_wrap (ranksPerBlock + 1))
      else Some ranksPerBlock
  end.

(** ** The ranks of a block (line 61) *)

(** [for (rank = blockIdx.x / blockDimSum; rank < worldSize;
    rank += worldSize / ranksPerBlock)], from the current [rank], with [step]
    for [worldSize / ranksPerBlock]: the ranks at which the body runs. *)
Fixpoint rank_loop (fuel : nat) (rank worldSize step : Z) : list Z :=
  match fuel with
  | O => []
  | S fuel' =>
      if rank <? worldSize
      then rank :: rank_loop fuel' (int64_wrap (rank + step)) worldSize step
      else []
  end.

(** ** A thread of the kernel *)





(** The launch of the kernel on the tables that the host builds for the shard
    sizes [dims]: what [shard_dims] and [block_tables] establish, with sizes
    in range. *)
Record launch_ok (dims table cums dimCums : list Z)
    (worldSize ranksPerBlock blockDim_x : Z) : Prop := mkLaunchOk {
  launch_dims : Forall (fun d => 1 <= d) dims;
  launch_range : total dims * worldSize < 2 ^ 50;
  launch_tables : tables_agree (length dims) table cums;
  launch_first : cums !! 0%nat = Some 0;
  launch_groups :
    forall (i : nat) (d : Z),
      dims !! i = Some d ->
      exists lo hi : Z,
        cums !! i = Some lo /\ cums !! S i = Some hi /\ 1 <= hi - lo;
  launch_blocks : Z.of_nat (length table) < 2 ^ 30;
  launch_dimCums_length : length dimCums = S (length dims);
  launch_dimCums :
    forall j : nat, (j <= length dims)%nat ->
      dimCums !! j = Some (total (take j dims));
  launch_ranks : 1 <= ranksPerBlock <= worldSize /\ worldSize < 2 ^ 31;
  launch_threads : MIN_NUM_THREADS <= blockDim_x <= MAX_NUM_THREADS
}.



(** ** The host function (lines 145-241) *)

(** [geometricMean]: its two checks.  The mean itself is computed in floating
    point with [log] and [exp]; [mean] stands for its value. *)
Definition geometricMean (mean : list Z -> Z) (numbers : list Z) : option Z :=
  if negb (0 <? Z.of_nat (length numbers)) then None
  else if forallb (fun num => 0 <? num) numbers then Some (mean numbers)
  else None.

(** The launch of the kernel: the grid, the block and the arguments.  The
    four vectors reach the kernel through [pack]; the launch holds them as the
    kernel reads them. *)
Record Launch : Type := mkLaunch {
  blocks_x : Z;
  threads_x : Z;
  arg_paramPtrs : list Z;
  arg_blockOffsetToParamIdx : list Z;
  arg_blockCumSums : list Z;
  arg_shardDimCumSums : list Z;
  arg_totalSize : Z;
  arg_numParams : Z;
  arg_shardDimSum : Z;
  arg_blockDimSum : Z;
  arg_ranksPerBlock : Z;
  arg_worldSize : Z
}.

(** [fsdpAllGatherCopyOut] up to the launch; [None] when a check fails or a
    loop runs out of fuel.  [dim3] holds the number of blocks as an unsigned
    number of 32 bits. *)
Definition fsdpAllGatherCopyOut (mean : list Z -> Z) (fuel : nat)
    (params : list Tensor) (allGatherRes : Tensor) (worldSize : Z)
    : option Launch :=
  let totalSize := int64_wrap (numel allGatherRes * element_size allGatherRes) in
  '(paramPtrs, shardDims, dimCumSums) ← shard_dims params allGatherRes worldSize;
  meanShardDim ← geometricMean mean shardDims;
  let blockSize := pick_blockSize meanShardDim in
  iterFactor ← iterFactor_loop fuel totalSize blockSize 1;
  '(blockOffsetToParamIdx, blockCumSums) ←
    block_tables shardDims blockSize iterFactor;
  numBlocks ← last blockCumSums;
  ranksPerBlock ← ranksPerBlock_loop fuel numBlocks worldSize 1;
  shardDimSum ← last dimCumSums;
  Some (mkLaunch
          (int64_wrap (numBlocks * Z.quot worldSize ranksPerBlock) mod 2 ^ 32)
          blockSize
          paramPtrs blockOffsetToParamIdx blockCumSums dimCumSums
          totalSize (Z.of_nat (length params)) shardDimSum numBlocks
          ranksPerBlock worldSize).

(** ** Packing the tables (lines 116-143) *)

(** [memcpy] of the elements of [src] over those of [dst] from the index
    [offset] on; [None] when they do not fit. *)
Definition memcpy (dst : list Z) (offset : nat) (src : list Z) : option (list Z) :=
  if (offset + length src <=? length dst)%nat
  then Some (take offset dst ++ src ++ drop (offset + length src) dst)%list
  else None.

(** The loop that copies the vectors into [packed], from [offset] on. *)
Fixpoint pack_copy (vecs : list (list Z)) (packed : list Z) (offset : nat)
    : option (list Z) :=
  match vecs with
  | [] => Some packed
  | vec :: rest =>
      packed' ← memcpy packed offset vec;
      pack_copy rest packed' (offset + length vec)
  end.

(** The loop that collects the pointers, as indices into [packed], from
    [offset] on. *)
Fixpoint pack_ptrs (vecs : list (list Z)) (offset : nat) : list nat :=
  match vecs with
  | [] => []
  | vec :: rest => offset :: pack_ptrs rest (offset + length vec)
  end.

(** [pack]: the packed tensor and the pointers into it.  [empty] stands for
    [at::empty], whose result holds whatever the memory held; moving the
    tensor to the device keeps its elements. *)
Definition pack (empty : nat -> list Z) (vecs : list (list Z))
    : option (list Z * list nat) :=
  let numel := foldl (fun numel vec => numel + length vec)%nat 0%nat vecs in
  packed ← pack_copy vecs (empty numel) 0;
  Some (packed, pack_ptrs vecs 0).

(** ** A run *)

(** Two parameters of 40 and 8 bytes, gathered from 2 ranks. *)
Definition sample_params : list Tensor :=
  [mkTensor 10 4 4096 0 true true; mkTensor 2 4 8192 0 true true].

Definition sample_allGatherRes : Tensor := mkTensor 12 4 65536 0 true true.

(** The geometric mean of 20 and 4, as an [int64_t]. *)
Definition sample_mean (numbers : list Z) : Z := 8.

Definition sample_shardDims : list Z := [20; 4].

Definition sample_dimCumSums : list Z := [0; 20; 24].

Definition sample_table : list Z := [0; 1].

Definition sample_cums : list Z := [0; 1; 2].

End AllGatherCopyOut.

(** * Properties *)

(** ** IsZero and the numeric value *)

Lemma SFeqb_zero_literal (f : spec_float) :
  SFeqb f zero_literal = is_zero_number f.
Proof.
  destruct f as [s | s | | s mant e]; try reflexivity; destruct s; reflexivity.
Qed.

(** On every type except [BFloat16], [IsZero] is the numeric test. *)
Lemma IsZero_numerically_zero (v : Value) :
  (forall x, v <> VBFloat16 x) -> IsZero v = numerically_zero v.
Proof.
  intros Hv.
  destruct v; cbn [IsZero numerically_zero]; unfold complex_eq_scalar;
    rewrite ?SFeqb_zero_literal; try reflexivity.
  exfalso. eapply Hv. reflexivity.
Qed.

(** On [BFloat16], a value [IsZero] accepts is a zero. *)
Lemma IsZero_BFloat16_sound (x : Z) :
  IsZero (VBFloat16 x) = true -> numerically_zero (VBFloat16 x) = true.
Proof.
  cbn [IsZero]. intros Hx. apply Z.eqb_eq in Hx. subst x.
  vm_compute. reflexivity.
Qed.

(** C6: the [BFloat16] specialization of [IsZero] tests the bits [x] against
    0, so the negative zero, of bits 0x8000, is a zero that [IsZero] rejects. *)
Theorem IsZero_BFloat16_negative_zero :
  bfloat16_of_bits 0x8000 = S754_zero true /\
  numerically_zero (VBFloat16 0x8000) = true /\
  IsZero (VBFloat16 0x8000) = false /\
  IsZero (VHalf 0x8000) = true.
Proof. repeat split; vm_compute; reflexivity. Qed.

(** ** Running the statements of PreTuning and PostTuning *)

Lemma PreTuning_zero host dev T params p h :
  params_store h !! params = Some p ->
  IsZero (beta p) = true ->
  PreTuning host dev T params h = Some (params, h).
Proof.
  intros Hp Hb. unfold PreTuning, mbind, M_bind, mret, M_ret, load.
  rewrite Hp, Hb. reflexivity.
Qed.

Lemma PostTuning_zero params p h :
  params_store h !! params = Some p ->
  IsZero (beta p) = true ->
  PostTuning params h = Some (tt, h).
Proof.
  intros Hp Hb. unfold PostTuning, mbind, M_bind, mret, M_ret, load.
  rewrite Hp, Hb. reflexivity.
Qed.

(** With a nonzero [beta], [PreTuning] creates one object, a copy of the
    caller's whose [c] is the block it allocates. *)
Lemma PreTuning_nonzero host dev T params p h :
  params_store h !! params = Some p ->
  IsZero (beta p) = false ->
  PreTuning host dev T params h =
    Some (new_address host (params_store h),
          mkHeap
            (<[new_address host (params_store h) :=
                 set_c p (alloc_address dev (device_blocks h) (scratch_nbytes T p))]>
               (params_store h))
            (<[alloc_address dev (device_blocks h) (scratch_nbytes T p) :=
                 scratch_nbytes T p]>
               (device_blocks h))).
Proof.
  intros Hp Hb.
  pose proof (new_address_fresh host (params_store h)) as Hfresh.
  assert (Hne : new_address host (params_store h) <> params) by congruence.
  unfold PreTuning, mbind, M_bind, mret, M_ret, load, store, new_GemmParams, raw_alloc.
  rewrite Hp, Hb. simpl.
  rewrite lookup_insert_ne by done. rewrite Hp. simpl.
  repeat (rewrite ?insert_insert_eq, ?lookup_insert_eq; simpl).
  reflexivity.
Qed.

(** [PostTuning] on the proxy frees the block at the proxy's [c] and deletes
    the proxy. *)
Lemma PostTuning_nonzero proxy q h :
  params_store h !! proxy = Some q ->
  IsZero (beta q) = false ->
  is_Some (device_blocks h !! c q) ->
  PostTuning proxy h =
    Some (tt, mkHeap (delete proxy (params_store h)) (delete (c q) (device_blocks h))).
Proof.
  intros Hq Hb [nbytes Hc].
  unfold PostTuning, mbind, M_bind, mret, M_ret, load, raw_delete, delete_GemmParams.
  rewrite Hq, Hb. simpl. rewrite Hc. simpl. rewrite Hq. reflexivity.
Qed.

Lemma Heap_eta h : mkHeap (params_store h) (device_blocks h) = h.
Proof. destruct h; reflexivity. Qed.

Lemma beta_set_c p ptr : beta (set_c p ptr) = beta p.
Proof. reflexivity. Qed.

Lemma c_set_c p ptr : c (set_c p ptr) = ptr.
Proof. reflexivity. Qed.

(** [PostTuning] on what [PreTuning] returned gives back the heap [PreTuning]
    started from. *)
Lemma PostTuning_undoes_PreTuning host dev T params p h :
  params_store h !! params = Some p ->
  IsZero (beta p) = false ->
  PostTuning (new_address host (params_store h))
    (mkHeap
       (<[new_address host (params_store h) :=
            set_c p (alloc_address dev (device_blocks h) (scratch_nbytes T p))]>
          (params_store h))
       (<[alloc_address dev (device_blocks h) (scratch_nbytes T p) :=
            scratch_nbytes T p]>
          (device_blocks h)))
  = Some (tt, h).
Proof.
  intros Hp Hb.
  pose proof (new_address_fresh host (params_store h)) as Hproxy.
  pose proof (alloc_address_fresh dev (device_blocks h) (scratch_nbytes T p)) as Hscratch.
  rewrite (PostTuning_nonzero _
             (set_c p (alloc_address dev (device_blocks h) (scratch_nbytes T p)))).
  - cbn [params_store device_blocks c set_c].
    rewrite !delete_insert_eq.
    rewrite !delete_id by assumption.
    rewrite Heap_eta. reflexivity.
  - apply lookup_insert_eq.
  - assumption.
  - cbn [params_store device_blocks c set_c]. rewrite lookup_insert_eq. eauto.
Qed.

(** ** Measuring candidates *)




(** ** PreTuning and PostTuning *)



(** C5: [PreTuning], from [h] to [h1], followed by [PostTuning] on its result,
    from [h1] to [h2], runs to the end, and [h2] is [h]: the caller's object
    and every block that was in use (the caller's output buffer among them)
    are still there.  The blocks [PostTuning] frees are the blocks [PreTuning]
    allocated, and the objects it deletes those [PreTuning] created.  When
    [beta] is not zero that is one block, the one at the proxy's [c], and one
    object, the proxy, which is not the caller's; when [beta] is zero there is
    none. *)
Theorem PostTuning_releases_what_PreTuning_acquired :
  forall (host : HostAllocator) (dev : DeviceAllocator) (T : ElemType)
         (params : Z) (p : GemmParams) (h : Heap),
    params_store h !! params = Some p ->
    exists (r : Z) (h1 h2 : Heap),
      PreTuning host dev T params h = Some (r, h1) /\
      PostTuning r h1 = Some (tt, h2) /\
      h2 = h /\
      blocks_only_in h1 h2 = blocks_only_in h1 h /\
      objects_only_in h1 h2 = objects_only_in h1 h /\
      (IsZero (beta p) = false ->
       exists q : GemmParams,
         params_store h1 !! r = Some q /\
         blocks_only_in h1 h = {[c q]} /\
         objects_only_in h1 h = {[r]} /\
         r <> params /\
         (is_Some (device_blocks h !! c p) -> c q <> c p)) /\
      (IsZero (beta p) = true ->
       r = params /\ blocks_only_in h1 h = ∅ /\ objects_only_in h1 h = ∅).
Proof.
  intros host dev T params p h Hp.
  destruct (IsZero (beta p)) eqn:Hb.
  - exists params, h, h.
    split; [eapply PreTuning_zero; eassumption |].
    split; [eapply PostTuning_zero; eassumption |].
    unfold blocks_only_in, objects_only_in.
    repeat split; try discriminate; set_solver.
  - pose proof (new_address_fresh host (params_store h)) as Hproxy.
    pose proof (alloc_address_fresh dev (device_blocks h) (scratch_nbytes T p)) as Hscratch.
    pose proof (PreTuning_nonzero host dev T params p h Hp Hb) as Hpre.
    pose proof (PostTuning_undoes_PreTuning host dev T params p h Hp Hb) as Hpost.
    generalize dependent (new_address host (params_store h)).
    generalize dependent (alloc_address dev (device_blocks h) (scratch_nbytes T p)).
    intros scratch Hscratch proxy Hproxy Hpre Hpost.
    exists proxy. eexists. exists h.
    split; [exact Hpre |].
    split; [exact Hpost |].
    do 3 (split; [reflexivity |]).
    split; [| discriminate].
    intros _. exists (set_c p scratch).
    cbn [params_store device_blocks c set_c].
    split; [simpl; apply lookup_insert_eq |].
    split.
    { unfold blocks_only_in. simpl. rewrite dom_insert_L.
      apply not_elem_of_dom in Hscratch. set_solver. }
    split.
    { unfold objects_only_in. simpl. rewrite dom_insert_L.
      apply not_elem_of_dom in Hproxy. set_solver. }
    split; [congruence |].
    intros [size Hc]. congruence.
Qed.

(** ** The size of the scratch buffer *)

Lemma scratch_nbytes_exact (T : ElemType) (p : GemmParams) :
  0 <= sizeof T ->
  0 <= m p -> 0 <= ldc p ->
  m p * ldc p * sizeof T < 2 ^ 64 ->
  m p * ldc p < 2 ^ 63 ->
  scratch_nbytes T p = m p * ldc p * sizeof T.
Proof.
  intros Hs Hm Hl Hsize Hprod.
  unfold scratch_nbytes, size_t_wrap, int64_wrap.
  assert (Hml : 0 <= m p * ldc p) by nia.
  replace ((m p * ldc p + 2 ^ 63) mod 2 ^ 64) with (m p * ldc p + 2 ^ 63)
    by (symmetry; apply Z.mod_small; lia).
  replace (m p * ldc p + 2 ^ 63 - 2 ^ 63) with (m p * ldc p) by lia.
  apply Z.mod_small. nia.
Qed.

(** Where the output has no more columns than rows, the scratch buffer is
    large enough. *)
Lemma scratch_holds_output_of_tall T p :
  0 <= sizeof T ->
  well_formed_output p ->
  n p <= m p ->
  m p * ldc p * sizeof T < 2 ^ 64 ->
  m p * ldc p < 2 ^ 63 ->
  holds_output T (scratch_nbytes T p) p.
Proof.
  intros Hs (Hm & Hn & Hl & Hml) Hnm Hsize Hprod i j Hi Hj.
  rewrite scratch_nbytes_exact by lia.
  unfold output_index.
  apply Z.mul_le_mono_nonneg_r; [assumption |].
  assert (j * ldc p <= (m p - 1) * ldc p) by nia.
  nia.
Qed.

(** C3: for the 1-by-2 float output of leading dimension 1 with [beta] 1.0f,
    [PreTuning] allocates a scratch block of [m * ldc * sizeof(float)], 4
    bytes, while the output, whose element (0, 1) has index 1, takes 8: the
    block does not hold the output.  The size is a product with the number of
    rows [m] where the BLAS layout needs the number of columns [n]. *)
Theorem PreTuning_scratch_smaller_than_output :
  forall (host : HostAllocator) (dev : DeviceAllocator),
    let h := mkHeap {[64 := row_times_matrix]} {[12288 := 8]} in
    well_formed_output row_times_matrix /\
    IsZero (beta row_times_matrix) = false /\
    output_nbytes Float row_times_matrix = 8 /\
    exists (proxy : Z) (q : GemmParams) (h' : Heap),
      PreTuning host dev Float 64 h = Some (proxy, h') /\
      params_store h' !! proxy = Some q /\
      device_blocks h' !! c q = Some 4 /\
      (holds_output Float 4 q -> False).
Proof.
  intros host dev h.
  split; [unfold well_formed_output; cbn; lia |].
  split; [vm_compute; reflexivity |].
  split; [vm_compute; reflexivity |].
  assert (Hp : params_store h !! 64 = Some row_times_matrix)
    by apply lookup_singleton_eq.
  assert (Hb : IsZero (beta row_times_matrix) = false) by (vm_compute; reflexivity).
  pose proof (PreTuning_nonzero host dev Float 64 row_times_matrix h Hp Hb) as Hpre.
  eexists _, _, _.
  split; [exact Hpre |].
  cbn [params_store device_blocks c set_c].
  split; [apply lookup_insert_eq |].
  split; [rewrite lookup_insert_eq; reflexivity |].
  intros Hholds.
  assert (Hlast : (output_index row_times_matrix 0 1 + 1) * sizeof Float <= 4).
  { apply (Hholds 0 1); cbn; lia. }
  vm_compute in Hlast. apply Hlast. reflexivity.
Qed.

(** ** Signature *)

Lemma append_same_length_inv (s1 s2 t1 t2 : string) :
  String.length s1 = String.length s2 ->
  s1 +:+ t1 = s2 +:+ t2 -> s1 = s2 /\ t1 = t2.
Proof.
  revert s2. induction s1 as [| ch s1 IH]; intros [| ch2 s2] Hlen Heq;
    try discriminate Hlen.
  - split; [reflexivity | exact Heq].
  - change (String ch (s1 +:+ t1) = String ch2 (s2 +:+ t2)) in Heq.
    injection Heq as Hch Hrest.
    injection Hlen as Hlen.
    destruct (IH s2 Hlen Hrest) as [-> ->]. subst. split; reflexivity.
Qed.

Lemma Signature_unfold (BlasOpToString : BlasOp -> string) (op : GemmTunableOp) :
  Signature BlasOpToString op =
  "GemmTunableOp_" +:+ TypeName (elem_type op) +:+ "_" +:+
    BlasOpToString (a_layout op) +:+ BlasOpToString (b_layout op) +:+ "".
Proof. reflexivity. Qed.

(** The names of the six types are told apart by what follows the prefix, up
    to the underscore that ends them. *)
Lemma TypeName_prefix_inj (T1 T2 : ElemType) (rest1 rest2 : string) :
  has_TypeName_specialization T1 = true ->
  has_TypeName_specialization T2 = true ->
  TypeName T1 +:+ "_" +:+ rest1 = TypeName T2 +:+ "_" +:+ rest2 ->
  T1 = T2 /\ rest1 = rest2.
Proof.
  intros H1 H2 Heq.
  destruct T1, T2; try discriminate H1; try discriminate H2;
    cbv [TypeName String.append] in Heq; split; congruence.
Qed.

(** C1, as stated, fails: two parameter sets of the float, non-transposed
    instance whose [m] differ get the one signature "GemmTunableOp_float_NN". *)
Lemma Signature_same_for_different_m :
  exists (op : GemmTunableOp) (p1 p2 : GemmParams),
    m p1 <> m p2 /\
    n p1 = n p2 /\
    k p1 = k p2 /\
    call_signature BlasOpToString_letter op p1 = "GemmTunableOp_float_NN" /\
    call_signature BlasOpToString_letter op p2 = "GemmTunableOp_float_NN".
Proof.
  exists (mkGemmTunableOp Float NoTrans NoTrans []),
         row_times_matrix, two_rows_times_matrix.
  repeat split; try reflexivity. cbn. discriminate.
Qed.

(** C1, amended: the signature is built from the name of the data type and the
    two layouts and from nothing else.  Whatever the parameters of a call, and
    so whatever their [m], [n] and [k], it is the same string; two instances of
    the same type and layouts have the same signature; and, the layouts being
    rendered by different strings of one length, two instances at types among
    the six that differ in the type or in a layout have different
    signatures. *)
Theorem Signature_type_and_layouts_only :
  forall BlasOpToString : BlasOp -> string,
    (forall o1 o2 : BlasOp,
        String.length (BlasOpToString o1) = String.length (BlasOpToString o2)) ->
    (forall o1 o2 : BlasOp, BlasOpToString o1 = BlasOpToString o2 -> o1 = o2) ->
    (forall (op : GemmTunableOp) (p1 p2 : GemmParams),
        call_signature BlasOpToString op p1 = call_signature BlasOpToString op p2) /\
    (forall op1 op2 : GemmTunableOp,
        elem_type op1 = elem_type op2 ->
        a_layout op1 = a_layout op2 ->
        b_layout op1 = b_layout op2 ->
        Signature BlasOpToString op1 = Signature BlasOpToString op2) /\
    (forall op1 op2 : GemmTunableOp,
        has_TypeName_specialization (elem_type op1) = true ->
        has_TypeName_specialization (elem_type op2) = true ->
        Signature BlasOpToString op1 = Signature BlasOpToString op2 ->
        elem_type op1 = elem_type op2 /\
        a_layout op1 = a_layout op2 /\
        b_layout op1 = b_layout op2).
Proof.
  intros BlasOpToString Hlen Hinj.
  split; [reflexivity |].
  split.
  - intros op1 op2 HT HA HB. rewrite !Signature_unfold, HT, HA, HB. reflexivity.
  - intros op1 op2 H1 H2 Heq.
    rewrite !Signature_unfold in Heq.
    apply (inj (String.append "GemmTunableOp_")) in Heq.
    destruct (TypeName_prefix_inj _ _ _ _ H1 H2 Heq) as [HT Hrest].
    destruct (append_same_length_inv _ _ _ _ (Hlen _ _) Hrest) as [HA HB].
    destruct (append_same_length_inv _ _ _ _ (Hlen _ _) HB) as [HB' _].
    auto.
Qed.

Lemma Signature_type_and_layouts_only_witness :
  (forall (op : GemmTunableOp) (p1 p2 : GemmParams),
      call_signature BlasOpToString_letter op p1 =
      call_signature BlasOpToString_letter op p2) /\
  (forall op1 op2 : GemmTunableOp,
      elem_type op1 = elem_type op2 ->
      a_layout op1 = a_layout op2 ->
      b_layout op1 = b_layout op2 ->
      Signature BlasOpToString_letter op1 = Signature BlasOpToString_letter op2) /\
  (forall op1 op2 : GemmTunableOp,
      has_TypeName_specialization (elem_type op1) = true ->
      has_TypeName_specialization (elem_type op2) = true ->
      Signature BlasOpToString_letter op1 = Signature BlasOpToString_letter op2 ->
      elem_type op1 = elem_type op2 /\
      a_layout op1 = a_layout op2 /\
      b_layout op1 = b_layout op2).
Proof.
  apply (Signature_type_and_layouts_only BlasOpToString_letter).
  - intros [] []; reflexivity.
  - intros [] []; simpl; intros Heq; try reflexivity; discriminate Heq.
Defined.

(** C10: a type without a [TypeName] specialization is named "unknown", so two
    instances at such types with the same layouts have the same signature,
    also when the two types differ. *)
Theorem unknown_types_share_Signature :
  forall (BlasOpToString : BlasOp -> string) (op1 op2 : GemmTunableOp),
    has_TypeName_specialization (elem_type op1) = false ->
    has_TypeName_specialization (elem_type op2) = false ->
    a_layout op1 = a_layout op2 ->
    b_layout op1 = b_layout op2 ->
    TypeName (elem_type op1) = "unknown" /\
    TypeName (elem_type op2) = "unknown" /\
    Signature BlasOpToString op1 = Signature BlasOpToString op2.
Proof.
  intros BlasOpToString op1 op2 H1 H2 HA HB.
  assert (HT : forall T, has_TypeName_specialization T = false -> TypeName T = "unknown").
  { intros []; simpl; intros HT; try discriminate HT; reflexivity. }
  split; [apply HT, H1 |]. split; [apply HT, H2 |].
  rewrite !Signature_unfold, (HT _ H1), (HT _ H2), HA, HB. reflexivity.
Qed.

Lemma unknown_types_share_Signature_witness :
  Other 0 1 <> Other 1 4 /\
  TypeName (Other 0 1) = "unknown" /\
  TypeName (Other 1 4) = "unknown" /\
  Signature BlasOpToString_letter (mkGemmTunableOp (Other 0 1) Trans NoTrans []) =
  Signature BlasOpToString_letter (mkGemmTunableOp (Other 1 4) Trans NoTrans []).
Proof.
  split; [discriminate |].
  apply (unknown_types_share_Signature BlasOpToString_letter
           (mkGemmTunableOp (Other 0 1) Trans NoTrans [])
           (mkGemmTunableOp (Other 1 4) Trans NoTrans []));
    reflexivity.
Defined.

(** ** The constructor *)

Lemma RegisterOp_Some name op ops ops' :
  RegisterOp name op ops = Some ops' ->
  ops' = (ops ++ [(name, op)])%list /\ name ∉ ops.*1.
Proof.
  unfold RegisterOp. destruct (decide (name ∈ ops.*1)) as [Hin | Hnotin].
  - discriminate.
  - intros [= <-]. split; [reflexivity | assumption].
Qed.

Lemma RegisterOp_fresh name op ops :
  name ∉ ops.*1 -> RegisterOp name op ops = Some (ops ++ [(name, op)])%list.
Proof.
  intros Hnotin. unfold RegisterOp.
  destruct (decide (name ∈ ops.*1)); [contradiction | reflexivity].
Qed.

(** The loop adds the candidates at the end, in their order. *)
Lemma RegisterOps_Some candidates :
  forall ops ops',
    RegisterOps candidates ops = Some ops' -> ops' = (ops ++ candidates)%list.
Proof.
  induction candidates as [| [name op] rest IH]; intros ops ops' Hreg.
  - simpl in Hreg. injection Hreg as <-. rewrite app_nil_r. reflexivity.
  - simpl in Hreg.
    destruct (RegisterOp name op ops) as [ops1 |] eqn:Hone; [| discriminate].
    simpl in Hreg. apply RegisterOp_Some in Hone as [-> _].
    rewrite (IH _ _ Hreg), <- app_assoc. reflexivity.
Qed.

(** The loop runs to the end when no name is registered twice. *)
Lemma RegisterOps_NoDup candidates :
  forall ops,
    NoDup (ops.*1 ++ candidates.*1) ->
    RegisterOps candidates ops = Some (ops ++ candidates)%list.
Proof.
  induction candidates as [| [name op] rest IH]; intros ops Hnodup.
  - simpl. rewrite app_nil_r. reflexivity.
  - simpl in *.
    assert (Hnotin : name ∉ ops.*1).
    { apply NoDup_app in Hnodup as (_ & Hdisj & _).
      intros Hin. apply (Hdisj name Hin). left. }
    rewrite (RegisterOp_fresh _ _ _ Hnotin). simpl.
    rewrite IH.
    + rewrite <- app_assoc. reflexivity.
    + rewrite fmap_app. simpl. rewrite <- app_assoc. exact Hnodup.
Qed.

Section TunableGemm_properties.

Variable gemm_internal :
  ascii -> ascii -> Z -> Z -> Z -> Value -> Z -> Z -> Z -> Z -> Value -> Z -> Z ->
  DevMem -> DevMem.
Variable GetRocBlasGemmTypeStringAndOps : ElemType -> list (string * Callable).
Variable GetHipBlasLtGemmTypeStringAndOps :
  ElemType -> BlasOp -> BlasOp -> list (string * Callable).
Variable ROCM_BUILD_INFO : string.
Variables ROCBLAS_VERSION_MAJOR ROCBLAS_VERSION_MINOR
          ROCBLAS_VERSION_PATCH ROCBLAS_VERSION_TWEAK : string.
Variables HIPBLASLT_VERSION_MAJOR HIPBLASLT_VERSION_MINOR
          HIPBLASLT_VERSION_PATCH HIPBLASLT_VERSION_TWEAK : string.
Variable RegisterValidator :
  string -> (unit -> string) -> (string -> TuningStatus) ->
  gmap string Validator -> gmap string Validator.

Local Abbreviation ctor :=
  (GemmTunableOp_ctor gemm_internal
     GetRocBlasGemmTypeStringAndOps GetHipBlasLtGemmTypeStringAndOps
     ROCM_BUILD_INFO
     ROCBLAS_VERSION_MAJOR ROCBLAS_VERSION_MINOR
     ROCBLAS_VERSION_PATCH ROCBLAS_VERSION_TWEAK
     HIPBLASLT_VERSION_MAJOR HIPBLASLT_VERSION_MINOR
     HIPBLASLT_VERSION_PATCH HIPBLASLT_VERSION_TWEAK
     RegisterValidator).

Local Abbreviation register_if_absent :=
  (register_version_if_absent RegisterValidator).

Local Abbreviation candidates_of :=
  (candidates_of gemm_internal
     GetRocBlasGemmTypeStringAndOps GetHipBlasLtGemmTypeStringAndOps).

Local Abbreviation version_validators :=
  (version_validators ROCM_BUILD_INFO
     ROCBLAS_VERSION_MAJOR ROCBLAS_VERSION_MINOR
     ROCBLAS_VERSION_PATCH ROCBLAS_VERSION_TWEAK
     HIPBLASLT_VERSION_MAJOR HIPBLASLT_VERSION_MINOR
     HIPBLASLT_VERSION_PATCH HIPBLASLT_VERSION_TWEAK).

Local Abbreviation validators_after :=
  (validators_after ROCM_BUILD_INFO
     ROCBLAS_VERSION_MAJOR ROCBLAS_VERSION_MINOR
     ROCBLAS_VERSION_PATCH ROCBLAS_VERSION_TWEAK
     HIPBLASLT_VERSION_MAJOR HIPBLASLT_VERSION_MINOR
     HIPBLASLT_VERSION_PATCH HIPBLASLT_VERSION_TWEAK
     RegisterValidator).

(** The constructor runs to the end when no candidate name comes twice, and
    when it does its result is this one. *)
Lemma ctor_Some T ALayout BLayout ctx op ctx' :
  ctor T ALayout BLayout ctx = Some (op, ctx') ->
  op = mkGemmTunableOp T ALayout BLayout (candidates_of T ALayout BLayout) /\
  ctx' = validators_after ctx.
Proof.
  unfold GemmTunableOp_ctor, candidates_of.
  rewrite (RegisterOp_fresh "Default" _ []) by (simpl; apply not_elem_of_nil).
  simpl.
  destruct (RegisterOps (GetRocBlasGemmTypeStringAndOps T) _) as [ops1 |] eqn:H1;
    [| discriminate].
  cbn [mbind option_bind]. apply RegisterOps_Some in H1 as ->.
  destruct (negb (is_complex T)).
  - destruct (RegisterOps (GetHipBlasLtGemmTypeStringAndOps T ALayout BLayout) _)
      as [ops2 |] eqn:H2; [| discriminate].
    cbn [mbind option_bind]. apply RegisterOps_Some in H2 as ->.
    intros [= <- <-]. split; reflexivity.
  - intros [= <- <-]. rewrite app_nil_r. split; reflexivity.
Qed.

Lemma ctor_NoDup T ALayout BLayout ctx :
  NoDup (candidates_of T ALayout BLayout).*1 ->
  ctor T ALayout BLayout ctx =
    Some (mkGemmTunableOp T ALayout BLayout (candidates_of T ALayout BLayout),
          validators_after ctx).
Proof.
  unfold candidates_of. intros Hnodup.
  set (default := ("Default", DefaultGemmOp gemm_internal)) in *.
  set (rocblas := GetRocBlasGemmTypeStringAndOps T) in *.
  assert (Hall : NoDup ((default :: rocblas).*1
                        ++ (if negb (is_complex T)
                            then GetHipBlasLtGemmTypeStringAndOps T ALayout BLayout
                            else []).*1)).
  { rewrite <- fmap_app. exact Hnodup. }
  assert (Hrocblas : NoDup ([default].*1 ++ rocblas.*1)).
  { apply NoDup_app in Hall as (Hrocblas & _ & _). exact Hrocblas. }
  unfold GemmTunableOp_ctor.
  rewrite (RegisterOp_fresh "Default" _ []) by (simpl; apply not_elem_of_nil).
  cbn [mbind option_bind]. fold default rocblas.
  rewrite RegisterOps_NoDup by exact Hrocblas.
  cbn [mbind option_bind].
  destruct (negb (is_complex T)).
  - rewrite RegisterOps_NoDup by exact Hall. reflexivity.
  - rewrite app_nil_r. reflexivity.
Qed.

(** C7: the first call of [RegisterOp] in the constructor is for "Default",
    bound to [DefaultGemmOp]; the candidates of the back ends come after it.
    So the constructor, which runs to the end when no candidate name comes
    twice, leaves "Default" first in the registration order, where the
    reference candidate is taken. *)
Theorem ctor_registers_Default_first :
  forall (T : ElemType) (ALayout BLayout : BlasOp) (ctx : gmap string Validator),
    (NoDup (candidates_of T ALayout BLayout).*1 ->
     is_Some (ctor T ALayout BLayout ctx)) /\
    (forall (op : GemmTunableOp) (ctx' : gmap string Validator),
        ctor T ALayout BLayout ctx = Some (op, ctx') ->
        head (ops_ op) = Some ("Default", DefaultGemmOp gemm_internal) /\
        reference_candidate (ops_ op) = Some "Default" /\
        listCandidates (ops_ op) =
          "Default"
            :: (GetRocBlasGemmTypeStringAndOps T).*1
            ++ (if negb (is_complex T)
                then (GetHipBlasLtGemmTypeStringAndOps T ALayout BLayout).*1
                else [])).
Proof.
  intros T ALayout BLayout ctx. split.
  - intros Hnodup. rewrite (ctor_NoDup _ _ _ _ Hnodup). eauto.
  - intros op ctx' Hctor. apply ctor_Some in Hctor as [-> _].
    unfold reference_candidate, listCandidates, candidates_of. simpl.
    repeat split. rewrite fmap_app. destruct (negb (is_complex T)); reflexivity.
Qed.

(** What is assumed of [RegisterValidator]: under a key that has no validator
    it stores the two functions it is given, and it leaves the other keys as
    they were.  Nothing is assumed of a registration under a key that has a
    validator. *)
Hypothesis RegisterValidator_absent :
  forall key get check (ctx : gmap string Validator),
    ctx !! key = None ->
    RegisterValidator key get check ctx !! key = Some (mkValidator get check).
Hypothesis RegisterValidator_other :
  forall key get check (ctx : gmap string Validator) key',
    key' <> key ->
    RegisterValidator key get check ctx !! key' = ctx !! key'.

Lemma register_if_absent_other validators key version ctx key' :
  key' <> key ->
  register_if_absent validators key version ctx !! key' = ctx !! key'.
Proof.
  intros Hne. unfold register_version_if_absent.
  destruct (validators !! key); [reflexivity |].
  apply RegisterValidator_other. assumption.
Qed.

Lemma register_if_absent_present validators key version ctx existing :
  validators !! key = Some existing ->
  register_if_absent validators key version ctx = ctx.
Proof.
  intros Hsome. unfold register_version_if_absent. rewrite Hsome. reflexivity.
Qed.

Lemma register_if_absent_absent validators key version ctx :
  validators !! key = None ->
  ctx !! key = None ->
  register_if_absent validators key version ctx !! key =
    Some (mkValidator (version_getter version) (version_validator version)).
Proof.
  intros Hnone Hctx. unfold register_version_if_absent. rewrite Hnone.
  apply RegisterValidator_absent. assumption.
Qed.

(** The validators after the constructor, key by key. *)
Lemma validators_after_lookup (ctx : gmap string Validator) (key : string) :
  validators_after ctx !! key =
    match ctx !! key with
    | Some existing => Some existing
    | None =>
        match list_to_map (M := gmap string string) version_validators !! key with
        | Some version =>
            Some (mkValidator (version_getter version) (version_validator version))
        | None => None
        end
    end.
Proof.
  unfold validators_after, version_validators. cbn [foldl fst snd list_to_map foldr].
  destruct (decide (key = "HIPBLASLT_VERSION")) as [-> | Hhip].
  { rewrite lookup_insert_ne by discriminate.
    rewrite lookup_insert_ne by discriminate.
    rewrite lookup_insert_eq.
    destruct (ctx !! "HIPBLASLT_VERSION") as [existing |] eqn:Hctx.
    - rewrite (register_if_absent_present _ _ _ _ _ Hctx).
      rewrite !register_if_absent_other by discriminate. exact Hctx.
    - apply register_if_absent_absent; [exact Hctx |].
      rewrite !register_if_absent_other by discriminate. exact Hctx. }
  rewrite register_if_absent_other by assumption.
  destruct (decide (key = "ROCBLAS_VERSION")) as [-> | Hblas].
  { rewrite lookup_insert_ne by discriminate.
    rewrite lookup_insert_eq.
    destruct (ctx !! "ROCBLAS_VERSION") as [existing |] eqn:Hctx.
    - rewrite (register_if_absent_present _ _ _ _ _ Hctx).
      rewrite !register_if_absent_other by discriminate. exact Hctx.
    - apply register_if_absent_absent; [exact Hctx |].
      rewrite !register_if_absent_other by discriminate. exact Hctx. }
  rewrite register_if_absent_other by assumption.
  destruct (decide (key = "ROCM_VERSION")) as [-> | Hrocm].
  { rewrite lookup_insert_eq.
    destruct (ctx !! "ROCM_VERSION") as [existing |] eqn:Hctx.
    - rewrite (register_if_absent_present _ _ _ _ _ Hctx). exact Hctx.
    - apply register_if_absent_absent; exact Hctx. }
  rewrite register_if_absent_other by assumption.
  rewrite !lookup_insert_ne by congruence. rewrite lookup_empty.
  destruct (ctx !! key); reflexivity.
Qed.

Lemma version_validators_NoDup : NoDup version_validators.*1.
Proof.
  unfold version_validators. cbn [fmap list_fmap fst].
  repeat (apply NoDup_cons; split; [rewrite ?elem_of_cons, elem_of_nil; intuition discriminate |]).
  apply NoDup_nil. exact I.
Qed.

(** C8: the constructor registers a validator for a version key only when the
    tuning context has none for it.  Whatever [RegisterValidator] would do to
    a key that has a validator, after the constructor every validator that was
    registered before is the one it was; each of the three version keys that
    had no validator has the one the constructor builds for it; and no other
    key is touched. *)
Theorem ctor_registers_validator_only_if_absent :
  forall (T : ElemType) (ALayout BLayout : BlasOp) (ctx : gmap string Validator),
    NoDup (candidates_of T ALayout BLayout).*1 ->
    exists (op : GemmTunableOp) (ctx' : gmap string Validator),
      ctor T ALayout BLayout ctx = Some (op, ctx') /\
      (forall (key : string) (existing : Validator),
          ctx !! key = Some existing -> ctx' !! key = Some existing) /\
      (forall key version : string,
          (key, version) ∈ version_validators ->
          ctx !! key = None ->
          ctx' !! key =
            Some (mkValidator (version_getter version) (version_validator version))) /\
      (forall key : string,
          key ∉ version_validators.*1 -> ctx' !! key = ctx !! key).
Proof.
  intros T ALayout BLayout ctx Hnodup.
  eexists _, _. split; [apply ctor_NoDup; exact Hnodup |].
  split; [| split].
  - intros key existing Hctx. rewrite validators_after_lookup, Hctx. reflexivity.
  - intros key version Hin Hctx. rewrite validators_after_lookup, Hctx.
    rewrite (elem_of_list_to_map_1 _ _ _ version_validators_NoDup Hin). reflexivity.
  - intros key Hnotin. rewrite validators_after_lookup.
    rewrite (not_elem_of_list_to_map_1 _ _ Hnotin).
    destruct (ctx !! key); reflexivity.
Qed.

(** C9: a validator the constructor registers, for a version key that had
    none, returns the version captured at registration on every call of its
    first function, and its second function answers OK on a stored value that
    is the captured version, character for character, and FAIL on any other. *)
Theorem ctor_version_validator_exact_match :
  forall (T : ElemType) (ALayout BLayout : BlasOp) (ctx : gmap string Validator)
         (key version : string),
    NoDup (candidates_of T ALayout BLayout).*1 ->
    (key, version) ∈ version_validators ->
    ctx !! key = None ->
    exists (op : GemmTunableOp) (ctx' : gmap string Validator) (entry : Validator),
      ctor T ALayout BLayout ctx = Some (op, ctx') /\
      ctx' !! key = Some entry /\
      (forall call : unit, get_value entry call = version) /\
      (forall stored : string, validate entry stored = OK <-> stored = version) /\
      (forall stored : string, stored <> version -> validate entry stored = FAIL).
Proof.
  intros T ALayout BLayout ctx key version Hnodup Hin Hctx.
  eexists _, _, _. split; [apply ctor_NoDup; exact Hnodup |].
  split.
  { rewrite validators_after_lookup, Hctx.
    rewrite (elem_of_list_to_map_1 _ _ _ version_validators_NoDup Hin). reflexivity. }
  cbn [get_value validate]. unfold version_getter, version_validator.
  split; [reflexivity |]. split.
  - intros stored. destruct (String.eqb version stored) eqn:Heqb.
    + apply String.eqb_eq in Heqb. split; [congruence | reflexivity].
    + apply String.eqb_neq in Heqb. split; [discriminate | congruence].
  - intros stored Hne. destruct (String.eqb version stored) eqn:Heqb.
    + apply String.eqb_eq in Heqb. congruence.
    + reflexivity.
Qed.

End TunableGemm_properties.

(** * The definitions at work *)

Lemma RegisterValidator_overwrite_absent key get check (ctx : gmap string Validator) :
  ctx !! key = None ->
  RegisterValidator_overwrite key get check ctx !! key = Some (mkValidator get check).
Proof. intros _. apply lookup_insert_eq. Qed.

Lemma RegisterValidator_overwrite_other key get check
    (ctx : gmap string Validator) key' :
  key' <> key ->
  RegisterValidator_overwrite key get check ctx !! key' = ctx !! key'.
Proof. intros Hne. apply lookup_insert_ne. congruence. Qed.

Lemma sample_candidates_NoDup T ALayout BLayout :
  NoDup (candidates_of gemm_internal_sample rocblas_sample hipblaslt_sample
           T ALayout BLayout).*1.
Proof.
  destruct T, ALayout, BLayout; vm_compute;
    repeat (apply NoDup_cons;
            split; [rewrite ?elem_of_cons, elem_of_nil; intuition discriminate |]);
    apply NoDup_nil; exact I.
Qed.

(** ** Witnesses *)



Lemma PostTuning_releases_what_PreTuning_acquired_witness :
  exists (r : Z) (h1 : Heap),
    PreTuning fresh_host fresh_device Float 64 (caller_heap row_times_matrix)
      = Some (r, h1) /\
    PostTuning r h1 = Some (tt, caller_heap row_times_matrix) /\
    r <> 64.
Proof.
  destruct (PostTuning_releases_what_PreTuning_acquired fresh_host fresh_device
              Float 64 row_times_matrix (caller_heap row_times_matrix))
    as (r & h1 & h2 & Hpre & Hpost & -> & _ & _ & Hnonzero & _).
  - apply lookup_singleton_eq.
  - destruct Hnonzero as (q & _ & _ & _ & Hne & _); [vm_compute; reflexivity |].
    exists r, h1. repeat split; assumption.
Defined.

Lemma ctor_registers_Default_first_witness :
  exists (op : GemmTunableOp) (ctx' : gmap string Validator),
    sample_ctor Float NoTrans Trans ∅ = Some (op, ctx') /\
    reference_candidate (ops_ op) = Some "Default" /\
    listCandidates (ops_ op) = ["Default"; "Gemm_Rocblas_0"; "Gemm_Hipblaslt_NT_0"].
Proof.
  destruct (ctor_registers_Default_first gemm_internal_sample rocblas_sample
              hipblaslt_sample
              "6.0.32830-d62f6a171" "4" "0" "0" "88df9726-dirty"
              "0" "6" "0" "ff093ca4" RegisterValidator_overwrite
              Float NoTrans Trans ∅) as [Hruns Hfirst].
  destruct (Hruns (sample_candidates_NoDup Float NoTrans Trans)) as [[op ctx'] Hctor].
  destruct (Hfirst op ctx' Hctor) as (_ & Href & Hlist).
  exists op, ctx'. repeat split; assumption.
Defined.

Lemma ctor_registers_validator_only_if_absent_witness :
  exists (op : GemmTunableOp) (ctx' : gmap string Validator),
    sample_ctor Half Trans NoTrans {["ROCM_VERSION" := earlier_rocm_validator]}
      = Some (op, ctx') /\
    ctx' !! "ROCM_VERSION" = Some earlier_rocm_validator /\
    ctx' !! "ROCBLAS_VERSION" =
      Some (mkValidator (version_getter "4.0.0-88df9726-dirty")
                        (version_validator "4.0.0-88df9726-dirty")).
Proof.
  destruct (ctor_registers_validator_only_if_absent gemm_internal_sample
              rocblas_sample hipblaslt_sample
              "6.0.32830-d62f6a171" "4" "0" "0" "88df9726-dirty"
              "0" "6" "0" "ff093ca4" RegisterValidator_overwrite
              RegisterValidator_overwrite_absent RegisterValidator_overwrite_other
              Half Trans NoTrans {["ROCM_VERSION" := earlier_rocm_validator]}
              (sample_candidates_NoDup Half Trans NoTrans))
    as (op & ctx' & Hctor & Hkeep & Hnew & _).
  exists op, ctx'. split; [exact Hctor |]. split.
  - apply Hkeep. apply lookup_singleton_eq.
  - apply (Hnew "ROCBLAS_VERSION" "4.0.0-88df9726-dirty").
    + apply list_elem_of_further, list_elem_of_here.
    + apply lookup_singleton_ne. discriminate.
Defined.

Lemma ctor_version_validator_exact_match_witness :
  exists (op : GemmTunableOp) (ctx' : gmap string Validator) (entry : Validator),
    sample_ctor Double NoTrans NoTrans ∅ = Some (op, ctx') /\
    ctx' !! "HIPBLASLT_VERSION" = Some entry /\
    get_value entry tt = "0.6.0-ff093ca4" /\
    validate entry "0.6.0-ff093ca4" = OK /\
    validate entry "0.6.1-ff093ca4" = FAIL.
Proof.
  destruct (ctor_version_validator_exact_match gemm_internal_sample
              rocblas_sample hipblaslt_sample
              "6.0.32830-d62f6a171" "4" "0" "0" "88df9726-dirty"
              "0" "6" "0" "ff093ca4" RegisterValidator_overwrite
              RegisterValidator_overwrite_absent RegisterValidator_overwrite_other
              Double NoTrans NoTrans ∅ "HIPBLASLT_VERSION" "0.6.0-ff093ca4"
              (sample_candidates_NoDup Double NoTrans NoTrans))
    as (op & ctx' & entry & Hctor & Hentry & Hget & Hok & Hfail).
  - do 2 apply list_elem_of_further. apply list_elem_of_here.
  - apply lookup_empty.
  - exists op, ctx', entry. split; [exact Hctor |]. split; [exact Hentry |].
    split; [apply Hget |]. split; [apply Hok; reflexivity |].
    apply Hfail. discriminate.
Defined.

(** * More on the header *)

(** ** Which bit patterns IsZero accepts *)

Lemma bit_field_nonneg (bits lo w : Z) : 0 <= w -> 0 <= bit_field bits lo w.
Proof.
  intros Hw. unfold bit_field. apply Z.land_nonneg. right.
  rewrite Z.ones_equiv. pose proof (Z.pow_pos_nonneg 2 w). lia.
Qed.

(** A pattern decodes to a zero exactly when its exponent and fraction fields
    are 0. *)
Lemma decode_zero (ebits mbits bits : Z) :
  0 <= mbits ->
  is_zero_number (decode ebits mbits bits) = true <->
  bit_field bits mbits ebits = 0 /\ bit_field bits 0 mbits = 0.
Proof.
  intros Hm. pose proof (bit_field_nonneg bits 0 mbits Hm) as Hf.
  unfold decode.
  destruct (bit_field bits mbits ebits =? 0) eqn:He.
  - apply Z.eqb_eq in He. rewrite He.
    destruct (bit_field bits 0 mbits) as [| f | f]; cbn [is_zero_number].
    + tauto.
    + split; [discriminate | intros [_ Hpos]; discriminate Hpos].
    + lia.
  - apply Z.eqb_neq in He.
    assert (Hno : is_zero_number
              (if bit_field bits mbits ebits =? Z.ones ebits
               then match bit_field bits 0 mbits with
                    | Z.pos _ => S754_nan
                    | _ => S754_infinity (Z.testbit bits (ebits + mbits))
                    end
               else match Z.lor (bit_field bits 0 mbits) (Z.shiftl 1 mbits) with
                    | Z.pos p =>
                        S754_finite (Z.testbit bits (ebits + mbits)) p
                          (bit_field bits mbits ebits - Z.ones (ebits - 1) - mbits)
                    | _ => S754_nan
                    end) = false).
    { destruct (bit_field bits mbits ebits =? Z.ones ebits).
      - destruct (bit_field bits 0 mbits); reflexivity.
      - destruct (Z.lor (bit_field bits 0 mbits) (Z.shiftl 1 mbits)); reflexivity. }
    rewrite Hno. split; [discriminate | tauto].
Qed.

Lemma fields_zero_mod (ebits mbits bits : Z) :
  0 <= mbits -> 0 <= ebits ->
  (bit_field bits mbits ebits = 0 /\ bit_field bits 0 mbits = 0) <->
  bits mod 2 ^ (ebits + mbits) = 0.
Proof.
  intros Hm He. unfold bit_field.
  rewrite !Z.land_ones by assumption.
  rewrite Z.shiftr_0_r, Z.shiftr_div_pow2 by assumption.
  replace (ebits + mbits) with (mbits + ebits) by lia.
  rewrite Z.pow_add_r by assumption.
  pose proof (Z.pow_pos_nonneg 2 mbits ltac:(lia) Hm) as Hpm.
  pose proof (Z.pow_pos_nonneg 2 ebits ltac:(lia) He) as Hpe.
  rewrite Z.rem_mul_r by lia.
  pose proof (Z.mod_pos_bound bits (2 ^ mbits) Hpm).
  pose proof (Z.mod_pos_bound (bits / 2 ^ mbits) (2 ^ ebits) Hpe).
  nia.
Qed.

Lemma zero_pattern (w bits : Z) :
  0 <= w -> 0 <= bits < 2 ^ (w + 1) ->
  bits mod 2 ^ w = 0 <-> bits = 0 \/ bits = 2 ^ w.
Proof.
  intros Hw Hbits.
  pose proof (Z.pow_pos_nonneg 2 w ltac:(lia) Hw) as Hp.
  rewrite Z.pow_add_r, Z.pow_1_r in Hbits by lia.
  split.
  - intros Hmod. pose proof (Z.div_mod bits (2 ^ w) ltac:(lia)) as Hdm.
    rewrite Hmod in Hdm.
    assert (bits / 2 ^ w = 0 \/ bits / 2 ^ w = 1) as [Hq | Hq].
    { assert (0 <= bits / 2 ^ w) by (apply Z.div_pos; lia).
      assert (bits / 2 ^ w < 2) by (apply Z.div_lt_upper_bound; lia). lia. }
    + left. rewrite Hq in Hdm. lia.
    + right. rewrite Hq in Hdm. lia.
  - intros [-> | ->]; [apply Z.mod_0_l; lia | apply Z.mod_same; lia].
Qed.

Lemma IsZero_pattern (ebits mbits bits : Z) :
  0 <= mbits -> 0 <= ebits -> 0 <= bits < 2 ^ (ebits + mbits + 1) ->
  SFeqb (decode ebits mbits bits) zero_literal = true <->
  bits = 0 \/ bits = 2 ^ (ebits + mbits).
Proof.
  intros Hm He Hbits.
  rewrite SFeqb_zero_literal, decode_zero, fields_zero_mod by assumption.
  apply zero_pattern; lia.
Qed.

(** X1: on [float], [double] and [Half], [IsZero] accepts the two patterns of
    the signed zeros and no other (no subnormal, no NaN); on [BFloat16] it
    accepts the pattern 0 alone. *)
Theorem IsZero_accepted_patterns :
  (forall bits : Z, 0 <= bits < 2 ^ 32 ->
      IsZero (VFloat bits) = true <-> bits = 0 \/ bits = 0x80000000) /\
  (forall bits : Z, 0 <= bits < 2 ^ 64 ->
      IsZero (VDouble bits) = true <-> bits = 0 \/ bits = 0x8000000000000000) /\
  (forall x : Z, 0 <= x < 2 ^ 16 ->
      IsZero (VHalf x) = true <-> x = 0 \/ x = 0x8000) /\
  (forall x : Z, IsZero (VBFloat16 x) = true <-> x = 0).
Proof.
  split; [| split; [| split]].
  - intros bits Hbits. cbn [IsZero]. unfold float_of_bits.
    rewrite IsZero_pattern; [reflexivity | lia | lia | exact Hbits].
  - intros bits Hbits. cbn [IsZero]. unfold double_of_bits.
    rewrite IsZero_pattern; [reflexivity | lia | lia | exact Hbits].
  - intros x Hx. cbn [IsZero]. unfold half_of_bits.
    rewrite IsZero_pattern; [reflexivity | lia | lia | exact Hx].
  - intros x. cbn [IsZero]. apply Z.eqb_eq.
Qed.

(** ** TypeName *)

(** X2: two element types have the same name exactly when they are the same
    type or neither has a [TypeName] specialization: the six names are
    pairwise different and none of them is "unknown". *)
Theorem TypeName_eq_iff (T1 T2 : ElemType) :
  TypeName T1 = TypeName T2 <->
  T1 = T2 \/
  (has_TypeName_specialization T1 = false /\
   has_TypeName_specialization T2 = false).
Proof.
  split.
  - destruct T1, T2; cbn [TypeName has_TypeName_specialization]; intros Heq;
      first [left; reflexivity | right; split; reflexivity | discriminate Heq].
  - intros [-> | [H1 H2]]; [reflexivity |].
    destruct T1, T2; try discriminate H1; try discriminate H2. reflexivity.
Qed.

(** ** What PreTuning keeps and when PostTuning frees *)



(** X4: [PostTuning] decides on [beta] alone.  Handed any object with a nonzero
    [beta] whose [c] is a block in use, the caller's own as well as a proxy,
    it frees that block and deletes the object, and touches nothing else. *)
Theorem PostTuning_releases_by_beta_alone :
  forall (params : Z) (p : GemmParams) (h : Heap),
    params_store h !! params = Some p ->
    IsZero (beta p) = false ->
    is_Some (device_blocks h !! c p) ->
    exists h' : Heap,
      PostTuning params h = Some (tt, h') /\
      params_store h' !! params = None /\
      device_blocks h' !! c p = None /\
      (forall addr : Z, addr <> params ->
          params_store h' !! addr = params_store h !! addr) /\
      (forall addr : Z, addr <> c p ->
          device_blocks h' !! addr = device_blocks h !! addr).
Proof.
  intros params p h Hp Hb Hc.
  eexists. split; [apply (PostTuning_nonzero params p h Hp Hb Hc) |].
  cbn [params_store device_blocks].
  split; [apply lookup_delete_eq |]. split; [apply lookup_delete_eq |].
  split; intros addr Hne; apply lookup_delete_ne; congruence.
Qed.

(** X5: a proxy is released once.  After [PreTuning] with [beta] not zero and
    [PostTuning] on the proxy, the object of the proxy is gone: a second
    [PostTuning] on it has nothing to read and does not run. *)
Theorem PostTuning_twice_fails :
  forall (host : HostAllocator) (dev : DeviceAllocator) (T : ElemType)
         (params : Z) (p : GemmParams) (h : Heap),
    params_store h !! params = Some p ->
    IsZero (beta p) = false ->
    exists (proxy : Z) (h1 h2 : Heap),
      PreTuning host dev T params h = Some (proxy, h1) /\
      PostTuning proxy h1 = Some (tt, h2) /\
      PostTuning proxy h2 = None.
Proof.
  intros host dev T params p h Hp Hb.
  eexists _, _, _.
  split; [apply (PreTuning_nonzero _ _ _ _ _ _ Hp Hb) |].
  split; [apply (PostTuning_undoes_PreTuning _ _ _ _ _ _ Hp Hb) |].
  unfold PostTuning, mbind, M_bind, load.
  rewrite (new_address_fresh host (params_store h)). reflexivity.
Qed.

(** ** Two proxies at a time *)

Lemma delete_delete_insert_insert {V : Type} (store : gmap Z V) (i j : Z) (x y : V) :
  store !! i = None -> store !! j = None ->
  delete j (delete i (<[j := y]> (<[i := x]> store))) = store /\
  delete i (delete j (<[j := y]> (<[i := x]> store))) = store.
Proof.
  intros Hi Hj.
  split; apply map_eq; intros key;
    rewrite !lookup_delete, !lookup_insert; repeat case_decide; congruence.
Qed.

(** X6: two calls of [PreTuning] on the same parameters, with [beta] not zero,
    give two proxies that share nothing: two different objects whose [c] are
    two different blocks.  Releasing them with [PostTuning], in the one order
    or the other, runs to the end and gives back the heap before the first
    call. *)
Theorem PreTuning_twice_independent :
  forall (host : HostAllocator) (dev : DeviceAllocator) (T : ElemType)
         (params : Z) (p : GemmParams) (h : Heap),
    params_store h !! params = Some p ->
    IsZero (beta p) = false ->
    exists (r1 r2 : Z) (h1 h2 : Heap) (q1 q2 : GemmParams),
      PreTuning host dev T params h = Some (r1, h1) /\
      PreTuning host dev T params h1 = Some (r2, h2) /\
      r1 <> r2 /\
      params_store h2 !! r1 = Some q1 /\
      params_store h2 !! r2 = Some q2 /\
      c q1 <> c q2 /\
      (exists h3 : Heap,
          PostTuning r2 h2 = Some (tt, h3) /\ PostTuning r1 h3 = Some (tt, h)) /\
      (exists h3 : Heap,
          PostTuning r1 h2 = Some (tt, h3) /\ PostTuning r2 h3 = Some (tt, h)).
Proof.
  intros host dev T params p h Hp Hb.
  pose proof (PreTuning_nonzero host dev T params p h Hp Hb) as Hpre1.
  pose proof (new_address_fresh host (params_store h)) as Hr1.
  pose proof (alloc_address_fresh dev (device_blocks h) (scratch_nbytes T p)) as Hc1.
  revert Hpre1 Hr1 Hc1.
  generalize (new_address host (params_store h)) as r1.
  generalize (alloc_address dev (device_blocks h) (scratch_nbytes T p)) as c1.
  intros c1 r1 Hpre1 Hr1 Hc1.
  set (h1 := mkHeap (<[r1 := set_c p c1]> (params_store h))
                    (<[c1 := scratch_nbytes T p]> (device_blocks h))) in *.
  assert (Hp1 : params_store h1 !! params = Some p).
  { cbn [h1 params_store]. rewrite lookup_insert_ne by congruence. exact Hp. }
  pose proof (PreTuning_nonzero host dev T params p h1 Hp1 Hb) as Hpre2.
  pose proof (new_address_fresh host (params_store h1)) as Hr2.
  pose proof (alloc_address_fresh dev (device_blocks h1) (scratch_nbytes T p)) as Hc2.
  revert Hpre2 Hr2 Hc2.
  generalize (new_address host (params_store h1)) as r2.
  generalize (alloc_address dev (device_blocks h1) (scratch_nbytes T p)) as c2.
  intros c2 r2 Hpre2 Hr2 Hc2.
  cbn [h1 params_store device_blocks] in Hr2, Hc2, Hpre2.
  assert (Hr : r1 <> r2).
  { intros <-. rewrite lookup_insert_eq in Hr2. discriminate. }
  assert (Hc : c1 <> c2).
  { intros <-. rewrite lookup_insert_eq in Hc2. discriminate. }
  rewrite lookup_insert_ne in Hr2 by exact Hr.
  rewrite lookup_insert_ne in Hc2 by exact Hc.
  destruct (delete_delete_insert_insert (params_store h) r1 r2
              (set_c p c1) (set_c p c2) Hr1 Hr2) as [Hs12 Hs21].
  destruct (delete_delete_insert_insert (device_blocks h) c1 c2
              (scratch_nbytes T p) (scratch_nbytes T p) Hc1 Hc2) as [Hb12 Hb21].
  exists r1, r2, h1. eexists. exists (set_c p c1), (set_c p c2).
  split; [exact Hpre1 |]. split; [exact Hpre2 |]. split; [exact Hr |].
  cbn [params_store device_blocks c set_c].
  split; [rewrite lookup_insert_ne by congruence; apply lookup_insert_eq |].
  split; [apply lookup_insert_eq |].
  split; [exact Hc |].
  split.
  - eexists. split.
    + apply (PostTuning_nonzero r2 (set_c p c2)).
      * cbn [params_store]. apply lookup_insert_eq.
      * exact Hb.
      * cbn [device_blocks c set_c]. rewrite lookup_insert_eq. eauto.
    + cbn [params_store device_blocks c set_c].
      rewrite (PostTuning_nonzero r1 (set_c p c1)).
      * cbn [params_store device_blocks c set_c].
        rewrite Hs21, Hb21, Heap_eta. reflexivity.
      * cbn [params_store]. rewrite lookup_delete_ne by congruence.
        rewrite lookup_insert_ne by congruence. apply lookup_insert_eq.
      * exact Hb.
      * cbn [device_blocks c set_c]. rewrite lookup_delete_ne by congruence.
        rewrite lookup_insert_ne by congruence. rewrite lookup_insert_eq. eauto.
  - eexists. split.
    + apply (PostTuning_nonzero r1 (set_c p c1)).
      * cbn [params_store]. rewrite lookup_insert_ne by congruence.
        apply lookup_insert_eq.
      * exact Hb.
      * cbn [device_blocks c set_c]. rewrite lookup_insert_ne by congruence.
        rewrite lookup_insert_eq. eauto.
    + cbn [params_store device_blocks c set_c].
      rewrite (PostTuning_nonzero r2 (set_c p c2)).
      * cbn [params_store device_blocks c set_c].
        rewrite Hs12, Hb12, Heap_eta. reflexivity.
      * cbn [params_store]. rewrite lookup_delete_ne by congruence.
        apply lookup_insert_eq.
      * exact Hb.
      * cbn [device_blocks c set_c]. rewrite lookup_delete_ne by congruence.
        rewrite lookup_insert_eq. eauto.
Qed.

(** ** For which shapes the scratch buffer is large enough *)

(** X7: for an output with at least one row and one column, [ldc] at least [m],
    and sizes that do not overflow, the block [PreTuning] allocates holds the
    output exactly when the output has no more columns than rows. *)
Theorem scratch_holds_output_iff :
  forall (T : ElemType) (p : GemmParams),
    0 < sizeof T ->
    1 <= m p -> 1 <= n p -> m p <= ldc p ->
    m p * ldc p * sizeof T < 2 ^ 64 ->
    m p * ldc p < 2 ^ 63 ->
    holds_output T (scratch_nbytes T p) p <-> n p <= m p.
Proof.
  intros T p Hs Hm Hn Hl Hsize Hprod. split.
  - intros Hholds.
    specialize (Hholds (m p - 1) (n p - 1) ltac:(lia) ltac:(lia)).
    rewrite scratch_nbytes_exact in Hholds by lia.
    unfold output_index in Hholds.
    apply Z.mul_le_mono_pos_r in Hholds; [| exact Hs].
    destruct (Z_le_gt_dec (n p) (m p)) as [Hle | Hgt]; [exact Hle | exfalso].
    assert (m p * ldc p <= (n p - 1) * ldc p) by nia.
    lia.
  - intros Hnm. apply scratch_holds_output_of_tall; try lia.
    unfold well_formed_output. lia.
Qed.

Lemma scratch_holds_output_iff_witness :
  holds_output Float (scratch_nbytes Float two_rows_times_matrix)
    two_rows_times_matrix
  <-> n two_rows_times_matrix <= m two_rows_times_matrix.
Proof.
  apply (scratch_holds_output_iff Float two_rows_times_matrix); vm_compute;
    first [reflexivity | discriminate].
Defined.

(** ** More on the constructor *)

Section TunableGemm_more.

Variable gemm_internal :
  ascii -> ascii -> Z -> Z -> Z -> Value -> Z -> Z -> Z -> Z -> Value -> Z -> Z ->
  DevMem -> DevMem.

Variable GetRocBlasGemmTypeStringAndOps : ElemType -> list (string * Callable).

Variable GetHipBlasLtGemmTypeStringAndOps :
  ElemType -> BlasOp -> BlasOp -> list (string * Callable).

Variable ROCM_BUILD_INFO : string.

Variables ROCBLAS_VERSION_MAJOR ROCBLAS_VERSION_MINOR
          ROCBLAS_VERSION_PATCH ROCBLAS_VERSION_TWEAK : string.

Variables HIPBLASLT_VERSION_MAJOR HIPBLASLT_VERSION_MINOR
          HIPBLASLT_VERSION_PATCH HIPBLASLT_VERSION_TWEAK : string.

Variable RegisterValidator :
  string -> (unit -> string) -> (string -> TuningStatus) ->
  gmap string Validator -> gmap string Validator.

Local Abbreviation ctor_with hipblaslt :=
  (GemmTunableOp_ctor gemm_internal
     GetRocBlasGemmTypeStringAndOps hipblaslt
     ROCM_BUILD_INFO
     ROCBLAS_VERSION_MAJOR ROCBLAS_VERSION_MINOR
     ROCBLAS_VERSION_PATCH ROCBLAS_VERSION_TWEAK
     HIPBLASLT_VERSION_MAJOR HIPBLASLT_VERSION_MINOR
     HIPBLASLT_VERSION_PATCH HIPBLASLT_VERSION_TWEAK
     RegisterValidator).

Local Abbreviation ctor := (ctor_with GetHipBlasLtGemmTypeStringAndOps).

Local Abbreviation candidates_of :=
  (candidates_of gemm_internal
     GetRocBlasGemmTypeStringAndOps GetHipBlasLtGemmTypeStringAndOps).

Local Abbreviation version_validators :=
  (version_validators ROCM_BUILD_INFO
     ROCBLAS_VERSION_MAJOR ROCBLAS_VERSION_MINOR
     ROCBLAS_VERSION_PATCH ROCBLAS_VERSION_TWEAK
     HIPBLASLT_VERSION_MAJOR HIPBLASLT_VERSION_MINOR
     HIPBLASLT_VERSION_PATCH HIPBLASLT_VERSION_TWEAK).

Local Abbreviation validators_after :=
  (validators_after ROCM_BUILD_INFO
     ROCBLAS_VERSION_MAJOR ROCBLAS_VERSION_MINOR
     ROCBLAS_VERSION_PATCH ROCBLAS_VERSION_TWEAK
     HIPBLASLT_VERSION_MAJOR HIPBLASLT_VERSION_MINOR
     HIPBLASLT_VERSION_PATCH HIPBLASLT_VERSION_TWEAK
     RegisterValidator).

(** X8: at a complex type the constructor does not look at the hipBLASLt
    candidates: its result is the same with any other provider of them, and
    the candidates it registers are "Default" and those of rocBLAS. *)
Theorem ctor_complex_skips_hipblaslt :
  forall (T : ElemType) (ALayout BLayout : BlasOp) (ctx : gmap string Validator)
         (other : ElemType -> BlasOp -> BlasOp -> list (string * Callable)),
    is_complex T = true ->
    ctor T ALayout BLayout ctx = ctor_with other T ALayout BLayout ctx /\
    (forall (op : GemmTunableOp) (ctx' : gmap string Validator),
        ctor T ALayout BLayout ctx = Some (op, ctx') ->
        listCandidates (ops_ op) = "Default" :: (GetRocBlasGemmTypeStringAndOps T).*1).
Proof.
  intros T ALayout BLayout ctx other Hcomplex. split.
  - destruct T; try discriminate Hcomplex; reflexivity.
  - intros op ctx' Hctor.
    apply ctor_Some in Hctor as [-> _].
    unfold listCandidates, candidates_of. cbn [ops_].
    rewrite Hcomplex. cbn [negb]. rewrite app_nil_r. reflexivity.
Qed.

Hypothesis RegisterValidator_absent :
  forall key get check (ctx : gmap string Validator),
    ctx !! key = None ->
    RegisterValidator key get check ctx !! key = Some (mkValidator get check).

Hypothesis RegisterValidator_other :
  forall key get check (ctx : gmap string Validator) key',
    key' <> key ->
    RegisterValidator key get check ctx !! key' = ctx !! key'.

Lemma validators_after_has_versions (ctx : gmap string Validator) (key : string) :
  key ∈ version_validators.*1 -> is_Some (validators_after ctx !! key).
Proof.
  intros Hin.
  rewrite (validators_after_lookup _ _ _ _ _ _ _ _ _ _
             RegisterValidator_absent RegisterValidator_other).
  destruct (ctx !! key); [eauto |].
  apply list_elem_of_fmap in Hin as [[key' version] [-> Hin]]. cbn [fst].
  rewrite (elem_of_list_to_map_1 _ _ _
             (version_validators_NoDup _ _ _ _ _ _ _ _ _) Hin).
  eauto.
Qed.

(** X9: after a construction each of the three version keys has a validator,
    and a second construction, at whatever type and layouts, registers
    nothing: it leaves the validators exactly as the first left them. *)
Theorem ctor_second_construction_registers_nothing :
  forall (T1 T2 : ElemType) (A1 B1 A2 B2 : BlasOp) (ctx : gmap string Validator),
    NoDup (candidates_of T1 A1 B1).*1 ->
    NoDup (candidates_of T2 A2 B2).*1 ->
    exists (op1 op2 : GemmTunableOp) (ctx1 : gmap string Validator),
      ctor T1 A1 B1 ctx = Some (op1, ctx1) /\
      (forall key : string,
          key ∈ ["ROCM_VERSION"; "ROCBLAS_VERSION"; "HIPBLASLT_VERSION"] ->
          is_Some (ctx1 !! key)) /\
      ctor T2 A2 B2 ctx1 = Some (op2, ctx1).
Proof.
  intros T1 T2 A1 B1 A2 B2 ctx Hnodup1 Hnodup2.
  eexists _, _, _.
  split; [apply ctor_NoDup; exact Hnodup1 |].
  split; [intros key Hin; apply validators_after_has_versions; exact Hin |].
  rewrite (ctor_NoDup _ _ _ _ _ _ _ _ _ _ _ _ _ _ _ _ _ Hnodup2).
  f_equal. f_equal.
  destruct (validators_after_has_versions ctx "ROCM_VERSION") as [v1 H1];
    [apply list_elem_of_here |].
  destruct (validators_after_has_versions ctx "ROCBLAS_VERSION") as [v2 H2];
    [apply list_elem_of_further, list_elem_of_here |].
  destruct (validators_after_has_versions ctx "HIPBLASLT_VERSION") as [v3 H3];
    [do 2 apply list_elem_of_further; apply list_elem_of_here |].
  unfold validators_after at 1, version_validators at 1.
  cbn [foldl fst snd].
  rewrite (register_if_absent_present _ _ _ _ _ _ H1).
  rewrite (register_if_absent_present _ _ _ _ _ _ H2).
  rewrite (register_if_absent_present _ _ _ _ _ _ H3).
  reflexivity.
Qed.

End TunableGemm_more.

(** ** Witnesses of the properties above *)

Lemma PostTuning_releases_by_beta_alone_witness :
  exists h' : Heap,
    PostTuning 64 (caller_heap row_times_matrix) = Some (tt, h') /\
    params_store h' !! 64 = None /\
    device_blocks h' !! c row_times_matrix = None /\
    (forall addr : Z, addr <> 64 ->
        params_store h' !! addr
        = params_store (caller_heap row_times_matrix) !! addr) /\
    (forall addr : Z, addr <> c row_times_matrix ->
        device_blocks h' !! addr
        = device_blocks (caller_heap row_times_matrix) !! addr).
Proof.
  apply (PostTuning_releases_by_beta_alone 64 row_times_matrix
           (caller_heap row_times_matrix)).
  - apply lookup_singleton_eq.
  - vm_compute. reflexivity.
  - exists 8. apply lookup_singleton_eq.
Defined.

Lemma PostTuning_twice_fails_witness :
  exists (proxy : Z) (h1 h2 : Heap),
    PreTuning fresh_host fresh_device Float 64 (caller_heap row_times_matrix)
      = Some (proxy, h1) /\
    PostTuning proxy h1 = Some (tt, h2) /\
    PostTuning proxy h2 = None.
Proof.
  apply (PostTuning_twice_fails fresh_host fresh_device Float 64
           row_times_matrix (caller_heap row_times_matrix)).
  - apply lookup_singleton_eq.
  - vm_compute. reflexivity.
Defined.

Lemma PreTuning_twice_independent_witness :
  exists (r1 r2 : Z) (h1 h2 : Heap) (q1 q2 : GemmParams),
    PreTuning fresh_host fresh_device Float 64 (caller_heap row_times_matrix)
      = Some (r1, h1) /\
    PreTuning fresh_host fresh_device Float 64 h1 = Some (r2, h2) /\
    r1 <> r2 /\
    params_store h2 !! r1 = Some q1 /\
    params_store h2 !! r2 = Some q2 /\
    c q1 <> c q2 /\
    (exists h3 : Heap,
        PostTuning r2 h2 = Some (tt, h3) /\
        PostTuning r1 h3 = Some (tt, caller_heap row_times_matrix)) /\
    (exists h3 : Heap,
        PostTuning r1 h2 = Some (tt, h3) /\
        PostTuning r2 h3 = Some (tt, caller_heap row_times_matrix)).
Proof.
  apply (PreTuning_twice_independent fresh_host fresh_device Float 64
           row_times_matrix (caller_heap row_times_matrix)).
  - apply lookup_singleton_eq.
  - vm_compute. reflexivity.
Defined.

Lemma ctor_complex_skips_hipblaslt_witness :
  sample_ctor ComplexFloat NoTrans Trans ∅
  = GemmTunableOp_ctor gemm_internal_sample rocblas_sample hipblaslt_clash
      "6.0.32830-d62f6a171" "4" "0" "0" "88df9726-dirty" "0" "6" "0" "ff093ca4"
      RegisterValidator_overwrite ComplexFloat NoTrans Trans ∅ /\
  (forall (op : GemmTunableOp) (ctx' : gmap string Validator),
      sample_ctor ComplexFloat NoTrans Trans ∅ = Some (op, ctx') ->
      listCandidates (ops_ op) = "Default" :: (rocblas_sample ComplexFloat).*1).
Proof.
  apply (ctor_complex_skips_hipblaslt gemm_internal_sample rocblas_sample
           hipblaslt_sample
           "6.0.32830-d62f6a171" "4" "0" "0" "88df9726-dirty" "0" "6" "0" "ff093ca4"
           RegisterValidator_overwrite ComplexFloat NoTrans Trans ∅
           hipblaslt_clash).
  reflexivity.
Defined.

Lemma ctor_second_construction_registers_nothing_witness :
  exists (op1 op2 : GemmTunableOp) (ctx1 : gmap string Validator),
    sample_ctor Float NoTrans NoTrans ∅ = Some (op1, ctx1) /\
    (forall key : string,
        key ∈ ["ROCM_VERSION"; "ROCBLAS_VERSION"; "HIPBLASLT_VERSION"] ->
        is_Some (ctx1 !! key)) /\
    sample_ctor Half Trans NoTrans ctx1 = Some (op2, ctx1).
Proof.
  apply (ctor_second_construction_registers_nothing gemm_internal_sample
           rocblas_sample hipblaslt_sample
           "6.0.32830-d62f6a171" "4" "0" "0" "88df9726-dirty" "0" "6" "0" "ff093ca4"
           RegisterValidator_overwrite
           RegisterValidator_overwrite_absent RegisterValidator_overwrite_other
           Float Half NoTrans NoTrans Trans NoTrans ∅
           (sample_candidates_NoDup Float NoTrans NoTrans)
           (sample_candidates_NoDup Half Trans NoTrans)).
Defined.

(** * The copy-out of an all-gather: properties *)

Module AllGatherCopyOut_properties.

Import AllGatherCopyOut.

(** The bounds of a product of numbers that are not negative. *)
Lemma mul_bounds (a b A B : Z) :
  0 <= a <= A -> 0 <= b <= B -> 0 <= a * b <= A * B.
Proof.
  intros [Ha HaA] [Hb HbB]. split.
  - apply Z.mul_nonneg_nonneg; assumption.
  - apply Z.mul_le_mono_nonneg; assumption.
Qed.

Lemma int64_wrap_small (x : Z) : - 2 ^ 63 <= x < 2 ^ 63 -> int64_wrap x = x.
Proof.
  intros Hx. unfold int64_wrap. rewrite Z.mod_small by lia. lia.
Qed.

Lemma int64_wrap_mod (x d : Z) : (d | 2 ^ 63) -> 0 < d -> int64_wrap x mod d = x mod d.
Proof.
  intros [q Hq] Hd. unfold int64_wrap.
  assert (H64 : 2 ^ 64 = 2 * q * d) by (change (2 ^ 64) with (2 * 2 ^ 63); lia).
  pose proof (Z.div_mod (x + 2 ^ 63) (2 ^ 64) ltac:(lia)) as Hdm.
  revert Hdm.
  generalize ((x + 2 ^ 63) mod 2 ^ 64) as r, ((x + 2 ^ 63) / 2 ^ 64) as wraps.
  intros r wraps Hdm.
  replace (r - 2 ^ 63) with (x - 2 ^ 64 * wraps) by lia.
  rewrite H64.
  replace (x - 2 * q * d * wraps) with (x + (- wraps * 2 * q) * d) by ring.
  apply Z.mod_add. lia.
Qed.

(** [divUp] rounds the quotient up, as long as the sum does not wrap around. *)
Lemma divUp_bounds :
  forall a b : Z,
    0 <= a -> 0 < b -> a + b <= 2 ^ 63 ->
    (divUp a b - 1) * b < a <= divUp a b * b.
Proof.
  intros a b Ha Hb Hsum. unfold divUp.
  rewrite int64_wrap_small by lia.
  rewrite Z.quot_div_nonneg by lia.
  pose proof (Z.div_mod (a + b - 1) b ltac:(lia)) as Hdm.
  pose proof (Z.mod_pos_bound (a + b - 1) b Hb) as Hmod.
  nia.
Qed.

(** X10: for [a] not negative and [b] positive, with a sum in range, [divUp] is
    the quotient rounded up: the least number of [b]s that cover [a]. *)
Theorem divUp_ceiling :
  forall a b : Z,
    0 <= a -> 0 < b -> a + b <= 2 ^ 63 ->
    (divUp a b - 1) * b < a <= divUp a b * b.
Proof. exact divUp_bounds. Qed.

Lemma divUp_ceiling_witness : (divUp 33 16 - 1) * 16 < 33 <= divUp 33 16 * 16.
Proof. apply (divUp_ceiling 33 16); lia. Defined.

(** The block size is clamped and a whole number of warps. *)
Lemma pick_blockSize_clamped :
  forall meanShardDim : Z,
    MIN_NUM_THREADS <= pick_blockSize meanShardDim <= MAX_NUM_THREADS /\
    pick_blockSize meanShardDim mod WARP_SIZE = 0.
Proof.
  intros meanShardDim. unfold pick_blockSize, MIN_NUM_THREADS, MAX_NUM_THREADS, WARP_SIZE.
  set (warps := divUp (divUp meanShardDim BYTES_PER_THREAD) 32).
  assert (Hmult : int64_wrap (warps * 32) mod 32 = 0).
  { rewrite int64_wrap_mod; [apply Z.mod_mul; lia | | lia].
    exists (2 ^ 58). reflexivity. }
  split; [lia |].
  destruct (Z.max_spec (int64_wrap (warps * 32)) 128) as [[_ ->] | [_ ->]];
    [destruct (Z.min_spec 128 1024) as [[_ ->] | [_ ->]]; reflexivity |].
  destruct (Z.min_spec (int64_wrap (warps * 32)) 1024) as [[_ ->] | [_ ->]];
    [exact Hmult | reflexivity].
Qed.

(** X11: whatever the mean shard size, the number of threads of a block is a
    whole number of warps between [MIN_NUM_THREADS] and [MAX_NUM_THREADS]. *)
Theorem pick_blockSize_range :
  forall meanShardDim : Z,
    MIN_NUM_THREADS <= pick_blockSize meanShardDim <= MAX_NUM_THREADS /\
    pick_blockSize meanShardDim mod WARP_SIZE = 0.
Proof. exact pick_blockSize_clamped. Qed.

(** X12: when the mean shard size is in range, a block has a thread for every
    16 bytes of a mean shard, unless that takes more than [MAX_NUM_THREADS]. *)
Theorem pick_blockSize_covers_mean :
  forall meanShardDim : Z,
    0 <= meanShardDim < 2 ^ 62 ->
    Z.min meanShardDim (MAX_NUM_THREADS * BYTES_PER_THREAD)
      <= pick_blockSize meanShardDim * BYTES_PER_THREAD.
Proof.
  intros meanShardDim Hmean.
  unfold pick_blockSize, MIN_NUM_THREADS, MAX_NUM_THREADS, WARP_SIZE, BYTES_PER_THREAD.
  pose proof (divUp_bounds meanShardDim 16 ltac:(lia) ltac:(lia) ltac:(lia)) as H16.
  set (per := divUp meanShardDim 16) in *.
  assert (Hper : 0 <= per < 2 ^ 59) by lia.
  pose proof (divUp_bounds per 32 ltac:(lia) ltac:(lia) ltac:(lia)) as H32.
  set (warps := divUp per 32) in *.
  rewrite int64_wrap_small by lia.
  lia.
Qed.

(** ** The shard sizes (lines 155-173) *)

Lemma total_app (l1 l2 : list Z) : total (l1 ++ l2) = total l1 + total l2.
Proof. unfold total. induction l1 as [| x l1 IH]; simpl; lia. Qed.

Lemma total_nonneg (l : list Z) : Forall (fun x => 0 <= x) l -> 0 <= total l.
Proof. unfold total. induction 1; simpl; lia. Qed.

(** A shard size computed by the loop, for a tensor that passed the checks. *)
Lemma shardDim_exact (t : Tensor) (worldSize : Z) :
  0 < worldSize -> 0 < element_size t -> nbytes t < 2 ^ 62 ->
  (0 <? numel t) = true ->
  (Z.rem (numel t) worldSize =? 0) = true ->
  let shardDim := Z.quot (int64_wrap (numel t * element_size t)) worldSize in
  1 <= shardDim /\ shardDim * worldSize = nbytes t /\ shardDim <= nbytes t.
Proof.
  intros Hws Hes Hrange Hnumel Hrem shardDim. unfold nbytes in *.
  apply Z.ltb_lt in Hnumel. apply Z.eqb_eq in Hrem.
  pose proof (Z.quot_rem' (numel t) worldSize) as Hqr. rewrite Hrem in Hqr.
  revert Hqr. generalize (Z.quot (numel t) worldSize) as q. intros q Hqr.
  assert (Hq : 1 <= q) by nia.
  assert (HshardDim : shardDim = q * element_size t).
  { unfold shardDim. rewrite int64_wrap_small by nia.
    replace (numel t * element_size t) with (q * element_size t * worldSize) by nia.
    apply Z.quot_mul. lia. }
  rewrite HshardDim. nia.
Qed.

Lemma shard_dims_loop_inv (device_ worldSize : Z) (rest : list Tensor) :
  forall (i : nat) (ptrs0 dims0 cums0 ptrs dims cums : list Z),
    0 < worldSize ->
    Forall (fun t => 0 < element_size t /\ 0 <= numel t) rest ->
    0 <= total dims0 ->
    total dims0 + total (nbytes <$> rest) < 2 ^ 62 ->
    length dims0 = i ->
    length cums0 = S i ->
    (forall j : nat, (j <= i)%nat -> cums0 !! j = Some (total (take j dims0))) ->
    shard_dims_loop rest device_ worldSize i ptrs0 dims0 cums0
      = Some (ptrs, dims, cums) ->
    exists dims1 : list Z,
      dims = (dims0 ++ dims1)%list /\
      ptrs = (ptrs0 ++ (data_ptr <$> rest))%list /\
      Forall2 (fun t d => 1 <= d /\ d * worldSize = nbytes t) rest dims1 /\
      length cums = S (length dims) /\
      (forall j : nat, (j <= length dims)%nat ->
          cums !! j = Some (total (take j dims))).
Proof.
  induction rest as [| t rest IH];
    intros i ptrs0 dims0 cums0 ptrs dims cums Hws Hrest Hnonneg Hrange Hdims Hcums Hpre Hloop.
  - cbn [shard_dims_loop] in Hloop. injection Hloop as <- <- <-.
    exists []. rewrite !app_nil_r. cbn [fmap list_fmap].
    split; [reflexivity |]. split; [reflexivity |]. split; [constructor |].
    split; [lia |]. intros j Hj. apply Hpre. lia.
  - cbn [shard_dims_loop] in Hloop.
    destruct (is_non_overlapping_and_dense t); cbn [negb] in Hloop; [| discriminate].
    destruct (device t =? device_); cbn [negb] in Hloop; [| discriminate].
    destruct (0 <? numel t) eqn:Hnumel; cbn [negb] in Hloop; [| discriminate].
    destruct (Z.rem (numel t) worldSize =? 0) eqn:Hrem; cbn [negb] in Hloop;
      [| discriminate].
    rewrite (Hpre i ltac:(lia)) in Hloop. cbn [mbind option_bind] in Hloop.
    rewrite take_ge in Hloop by lia.
    apply Forall_cons in Hrest as [[Hes _] Hrest].
    rewrite fmap_cons in Hrange. cbn [total foldr] in Hrange. fold (total (nbytes <$> rest)) in Hrange.
    assert (Hrest_nonneg : 0 <= total (nbytes <$> rest)).
    { apply total_nonneg. apply Forall_fmap.
      eapply Forall_impl; [exact Hrest |]. intros x [? ?]. cbn. unfold nbytes. nia. }
    destruct (shardDim_exact t worldSize Hws Hes ltac:(lia) Hnumel Hrem)
      as (Hone & Hexact & Hle).
    set (shardDim := Z.quot (int64_wrap (numel t * element_size t)) worldSize) in *.
    rewrite int64_wrap_small in Hloop by lia.
    apply IH in Hloop.
    + destruct Hloop as (dims1 & -> & -> & Hall & Hlen & Hsums).
      exists (shardDim :: dims1).
      rewrite <- !app_assoc in *. cbn [app fmap list_fmap] in *.
      split; [reflexivity |]. split; [reflexivity |].
      split; [constructor; [split; assumption | exact Hall] |].
      split; [exact Hlen | exact Hsums].
    + exact Hws.
    + exact Hrest.
    + rewrite total_app. cbn [total foldr]. lia.
    + rewrite total_app. cbn [total foldr]. lia.
    + rewrite length_app. cbn [length]. lia.
    + rewrite length_app. cbn [length]. lia.
    + intros j Hj. destruct (decide (j = S i)) as [-> | Hne].
      * rewrite lookup_app_r by lia. rewrite Hcums, Nat.sub_diag. cbn [lookup list_lookup].
        rewrite take_ge by (rewrite length_app; cbn [length]; lia).
        rewrite total_app. cbn [total foldr]. f_equal. lia.
      * rewrite lookup_app_l by lia. rewrite (Hpre j ltac:(lia)).
        rewrite take_app_le by lia. reflexivity.
Qed.

(** What the first loop leaves in its three vectors. *)
Lemma shard_dims_facts :
  forall (params : list Tensor) (allGatherRes : Tensor) (worldSize : Z)
         (paramPtrs shardDims dimCumSums : list Z),
    0 < worldSize ->
    sizes_in_range params ->
    0 <= nbytes allGatherRes < 2 ^ 63 ->
    shard_dims params allGatherRes worldSize
      = Some (paramPtrs, shardDims, dimCumSums) ->
    paramPtrs = data_ptr <$> params /\
    Forall2 (fun t d => 1 <= d /\ d * worldSize = nbytes t) params shardDims /\
    length dimCumSums = S (length shardDims) /\
    (forall j : nat, (j <= length shardDims)%nat ->
        dimCumSums !! j = Some (total (take j shardDims))) /\
    total shardDims * worldSize = nbytes allGatherRes.
Proof.
  intros params res worldSize ptrs dims cums Hws [Hsizes Hrange] Hres Hplan.
  unfold shard_dims in Hplan.
  destruct (is_cuda res); cbn [negb] in Hplan; [| discriminate].
  destruct (is_non_overlapping_and_dense res); cbn [negb] in Hplan; [| discriminate].
  destruct (shard_dims_loop params (device res) worldSize 0 [] [] [0])
    as [[[ptrs' dims'] cums'] |] eqn:Hloop; [| discriminate].
  cbn [mbind option_bind] in Hplan.
  apply shard_dims_loop_inv in Hloop; try (cbn; lia); try assumption.
  2: { intros j Hj. replace j with 0%nat by lia. reflexivity. }
  destruct Hloop as (dims1 & -> & -> & Hall & Hlen & Hsums).
  cbn [app] in *.
  rewrite last_lookup, Hlen in Hplan. cbn [Nat.pred] in Hplan.
  rewrite (Hsums (length dims1) ltac:(lia)), take_ge in Hplan by lia.
  cbn [mbind option_bind] in Hplan.
  assert (Htotal : total dims1 * worldSize = total (nbytes <$> params)).
  { clear - Hall. induction Hall as [| t d ts ds [_ Hd] _ IH]; [reflexivity |].
    rewrite fmap_cons. cbn [total foldr]. fold (total ds) (total (nbytes <$> ts)). lia. }
  assert (Hnonneg : 0 <= total (nbytes <$> params)).
  { apply total_nonneg. apply Forall_fmap.
    eapply Forall_impl; [exact Hsizes |]. intros x [? ?]. cbn. unfold nbytes. nia. }
  rewrite !int64_wrap_small in Hplan by (unfold nbytes in *; lia).
  destruct (total dims1 * worldSize =? numel res * element_size res) eqn:Hcheck;
    cbn [negb] in Hplan; [| discriminate].
  injection Hplan as <- <- <-. apply Z.eqb_eq in Hcheck.
  split; [reflexivity |]. split; [exact Hall |]. split; [exact Hlen |].
  split; [exact Hsums | exact Hcheck].
Qed.

(** X13: when the checks of [fsdpAllGatherCopyOut] pass, for a positive world
    size and sizes in range, every parameter is cut into [worldSize] shards of
    one size, of at least one byte; [dimCumSums] holds the running sums of the
    shard sizes; and the shards of all the parameters and ranks take exactly
    the bytes of [allGatherRes]. *)
Theorem shard_dims_sound :
  forall (params : list Tensor) (allGatherRes : Tensor) (worldSize : Z)
         (paramPtrs shardDims dimCumSums : list Z),
    0 < worldSize ->
    sizes_in_range params ->
    0 <= nbytes allGatherRes < 2 ^ 63 ->
    shard_dims params allGatherRes worldSize
      = Some (paramPtrs, shardDims, dimCumSums) ->
    paramPtrs = data_ptr <$> params /\
    Forall2 (fun t d => 1 <= d /\ d * worldSize = nbytes t) params shardDims /\
    length dimCumSums = S (length shardDims) /\
    (forall j : nat, (j <= length shardDims)%nat ->
        dimCumSums !! j = Some (total (take j shardDims))) /\
    total shardDims * worldSize = nbytes allGatherRes.
Proof. exact shard_dims_facts. Qed.

(** ** The blocks of each parameter (lines 194-204) *)

Lemma block_tables_loop_inv (perBlock : Z) (rest : list Z) :
  forall (i : nat) (table0 cums0 : list Z),
    0 < perBlock < 2 ^ 62 ->
    Forall (fun d => 1 <= d) rest ->
    Z.of_nat i + Z.of_nat (length table0) + total rest
      + Z.of_nat (length rest) < 2 ^ 62 ->
    tables_agree i table0 cums0 ->
    exists table cums : list Z,
      block_tables_loop rest (Z.of_nat i) perBlock table0 cums0 = Some (table, cums) /\
      tables_agree (i + length rest) table cums /\
      (forall j : nat, (j <= i)%nat -> cums !! j = cums0 !! j) /\
      (forall (j : nat) (d : Z),
          rest !! j = Some d ->
          exists lo hi : Z,
            cums !! (i + j)%nat = Some lo /\ cums !! S (i + j) = Some hi /\
            hi - lo = divUp d perBlock).
Proof.
  induction rest as [| d rest IH]; intros i table0 cums0 Hper Hdims Hrange Hagree.
  - exists table0, cums0. cbn [block_tables_loop length].
    rewrite Nat.add_0_r.
    split; [reflexivity |]. split; [exact Hagree |]. split; [reflexivity |].
    intros j d Hj. rewrite lookup_nil in Hj. discriminate.
  - cbn [block_tables_loop].
    apply Forall_cons in Hdims as [Hd Hdims].
    cbn [total foldr length] in Hrange. fold (total rest) in Hrange.
    pose proof (total_nonneg rest) as Hnonneg.
    assert (0 <= total rest).
    { apply Hnonneg. eapply Forall_impl; [exact Hdims |]. cbn. lia. }
    pose proof (divUp_bounds d perBlock ltac:(lia) ltac:(lia) ltac:(lia)) as Hceil.
    set (numBlocks := divUp d perBlock) in *.
    assert (Hnb : 1 <= numBlocks <= d) by nia.
    destruct (numBlocks <? 0) eqn:Hneg; [apply Z.ltb_lt in Hneg; lia |].
    destruct Hagree as (Hlen & Hback & Hblocks).
    rewrite last_lookup, Hlen. cbn [Nat.pred]. rewrite Hback.
    cbn [mbind option_bind].
    rewrite !int64_wrap_small by lia.
    replace (Z.of_nat i + 1) with (Z.of_nat (S i)) by lia.
    destruct (IH (S i)
                (table0 ++ replicate (Z.to_nat numBlocks) (Z.of_nat i))%list
                (cums0 ++ [Z.of_nat (length table0) + numBlocks])%list)
      as (table & cums & Hloop & Hagree' & Hkeep & Hcover).
    + exact Hper.
    + exact Hdims.
    + rewrite length_app, length_replicate. lia.
    + split; [rewrite length_app; cbn [length]; lia |].
      split.
      { rewrite lookup_app_r by lia. rewrite Hlen, Nat.sub_diag. cbn [lookup list_lookup].
        rewrite length_app, length_replicate. f_equal. lia. }
      intros o idx Ho.
      destruct (decide (o < length table0)%nat) as [Hlt | Hge].
      * rewrite lookup_app_l in Ho by exact Hlt.
        destruct (Hblocks o idx Ho) as (j & lo & hi & -> & Hj & Hlo & Hhi & Hin).
        exists j, lo, hi. split; [reflexivity |]. split; [lia |].
        rewrite !lookup_app_l by lia. auto.
      * rewrite lookup_app_r in Ho by lia.
        apply lookup_replicate in Ho as [-> Ho].
        exists i, (Z.of_nat (length table0)), (Z.of_nat (length table0) + numBlocks).
        split; [reflexivity |]. split; [lia |].
        split; [rewrite lookup_app_l by lia; exact Hback |].
        split; [rewrite lookup_app_r by lia; rewrite Hlen, Nat.sub_diag; reflexivity |].
        lia.
    + exists table, cums. split; [exact Hloop |].
      split; [cbn [length];
              replace (i + S (length rest))%nat with (S i + length rest)%nat by lia;
              exact Hagree' |].
      split.
      { intros j Hj. rewrite (Hkeep j ltac:(lia)). apply lookup_app_l. lia. }
      intros [| j] d' Hj; cbn [lookup list_lookup] in Hj.
      * injection Hj as <-. rewrite Nat.add_0_r.
        exists (Z.of_nat (length table0)), (Z.of_nat (length table0) + numBlocks).
        rewrite (Hkeep (S i) ltac:(lia)), (Hkeep i ltac:(lia)).
        split; [rewrite lookup_app_l by lia; exact Hback |].
        split; [rewrite lookup_app_r by lia; rewrite Hlen, Nat.sub_diag; reflexivity |].
        unfold numBlocks. lia.
      * destruct (Hcover j d' Hj) as (lo & hi & Hlo & Hhi & Hdiff).
        exists lo, hi. replace (i + S j)%nat with (S i + j)%nat by lia.
        auto.
Qed.

(** X14: for shards of at least one byte and sizes in range, the loop that
    builds [blockOffsetToParamIdx] and [blockCumSums] runs to the end.  The
    block of every offset belongs to the parameter whose range of blocks in
    [blockCumSums] holds the offset; the last entry of [blockCumSums] is the
    number of blocks; and every parameter has at least one block, and blocks
    enough for its threads to cover a shard at [BYTES_PER_THREAD * iterFactor]
    bytes a thread. *)
Theorem block_tables_sound :
  forall (shardDims : list Z) (blockSize iterFactor : Z),
    MIN_NUM_THREADS <= blockSize <= MAX_NUM_THREADS ->
    1 <= iterFactor < 2 ^ 40 ->
    Forall (fun d => 1 <= d) shardDims ->
    total shardDims + Z.of_nat (length shardDims) < 2 ^ 62 ->
    exists table cums : list Z,
      block_tables shardDims blockSize iterFactor = Some (table, cums) /\
      tables_agree (length shardDims) table cums /\
      cums !! 0%nat = Some 0 /\
      forall (i : nat) (d : Z),
        shardDims !! i = Some d ->
        exists lo hi : Z,
          cums !! i = Some lo /\ cums !! S i = Some hi /\
          1 <= hi - lo /\
          d <= (hi - lo) * (blockSize * BYTES_PER_THREAD * iterFactor).
Proof.
  intros shardDims blockSize iterFactor Hbs Hit Hdims Hrange.
  unfold MIN_NUM_THREADS, MAX_NUM_THREADS in Hbs.
  unfold block_tables, BYTES_PER_THREAD.
  rewrite (int64_wrap_small (blockSize * 16)) by lia.
  rewrite int64_wrap_small by nia.
  destruct (block_tables_loop_inv (blockSize * 16 * iterFactor) shardDims 0 [] [0])
    as (table & cums & Hloop & Hagree & Hkeep & Hcount).
  - nia.
  - exact Hdims.
  - cbn [length]. lia.
  - split; [reflexivity |]. split; [reflexivity |].
    intros o idx Ho. rewrite lookup_nil in Ho. discriminate.
  - exists table, cums. split; [exact Hloop |]. split; [exact Hagree |].
    split; [rewrite (Hkeep 0%nat ltac:(lia)); reflexivity |].
    intros i d Hd.
    destruct (Hcount i d Hd) as (lo & hi & Hlo & Hhi & Hdiff).
    exists lo, hi. cbn [Nat.add] in Hlo, Hhi.
    split; [exact Hlo |]. split; [exact Hhi |].
    assert (1 <= d) by (eapply Forall_lookup_1 in Hdims; [exact Hdims | exact Hd]).
    assert (d <= total shardDims).
    { clear - Hd Hdims. revert i Hd.
      induction Hdims as [| x l Hx Hl IH]; intros [| i] Hi; cbn in Hi; try discriminate.
      - injection Hi as ->. unfold total. cbn [foldr]. fold (total l).
        pose proof (total_nonneg l ltac:(eapply Forall_impl; [exact Hl |]; cbn; lia)).
        lia.
      - unfold total. cbn [foldr]. fold (total l).
        specialize (IH i Hi). lia. }
    pose proof (divUp_bounds d (blockSize * 16 * iterFactor)
                  ltac:(lia) ltac:(nia) ltac:(nia)) as Hceil.
    rewrite Hdiff. nia.
Qed.

(** ** The kernel (lines 46-103) *)

Lemma size_t_wrap_small (x : Z) : 0 <= x < 2 ^ 64 -> size_t_wrap x = x.
Proof. intros Hx. unfold size_t_wrap. apply Z.mod_small. exact Hx. Qed.

(** [alignOff] is what is missing from [dstOff] to the next multiple of 16. *)
Lemma alignOff_spec (dstOff : Z) :
  0 <= dstOff < 2 ^ 62 ->
  0 <= alignOff_of dstOff < 16 /\ (dstOff + alignOff_of dstOff) mod 16 = 0.
Proof.
  intros Hdst. unfold alignOff_of, BYTES_PER_THREAD.
  pose proof (divUp_bounds dstOff 16 ltac:(lia) ltac:(lia) ltac:(lia)) as Hceil.
  rewrite (int64_wrap_small (divUp dstOff 16 * 16)) by lia.
  rewrite int64_wrap_small by lia.
  split; [lia |].
  replace (dstOff + (divUp dstOff 16 * 16 - dstOff)) with (divUp dstOff 16 * 16) by lia.
  apply Z.mod_mul. lia.
Qed.

(** [end] is [alignOff] plus the bytes of the whole pieces that fit between
    [alignOff] and [shardLen]; none fits when the shard ends before
    [alignOff]. *)
Lemma end_of_spec (shardLen alignOff : Z) :
  0 <= shardLen < 2 ^ 62 -> 0 <= alignOff < 16 ->
  let end_ := end_of shardLen alignOff in
  (end_ - alignOff) mod 16 = 0 /\
  alignOff <= end_ /\
  (alignOff <= shardLen -> end_ <= shardLen < end_ + 16) /\
  (shardLen < alignOff -> end_ = alignOff).
Proof.
  intros Hlen Halign end_. unfold end_, end_of, BYTES_PER_THREAD.
  rewrite (int64_wrap_small (shardLen - alignOff)) by lia.
  pose proof (Z.quot_rem' (shardLen - alignOff) 16) as Hqr.
  pose proof (Z.rem_bound_abs (shardLen - alignOff) 16 ltac:(lia)) as Habs.
  destruct (Z_le_gt_dec alignOff shardLen) as [Hle | Hgt].
  - pose proof (Z.rem_bound_pos (shardLen - alignOff) 16 ltac:(lia) ltac:(lia)).
    rewrite (int64_wrap_small (Z.quot (shardLen - alignOff) 16 * 16)) by lia.
    rewrite int64_wrap_small by lia.
    split; [replace (alignOff + Z.quot (shardLen - alignOff) 16 * 16 - alignOff)
              with (Z.quot (shardLen - alignOff) 16 * 16) by lia;
            apply Z.mod_mul; lia |].
    lia.
  - assert (Hq : Z.quot (shardLen - alignOff) 16 = 0).
    { replace (shardLen - alignOff) with (- (alignOff - shardLen)) by lia.
      rewrite Z.quot_opp_l by lia. rewrite Z.quot_small by lia. reflexivity. }
    rewrite Hq. rewrite (int64_wrap_small (0 * 16)) by lia.
    rewrite int64_wrap_small by lia.
    split; [replace (alignOff + 0 * 16 - alignOff) with 0 by lia; reflexivity |].
    lia.
Qed.

(** The loop visits [i], [i + stride], ... as long as they are below [end],
    given fuel for it. *)
Lemma vector_loop_elem (end_ stride : Z) (fuel : nat) :
  forall i x : Z,
    0 <= i < 2 ^ 63 -> 0 <= end_ < 2 ^ 62 -> 0 < stride < 2 ^ 62 ->
    (Z.to_nat (end_ - i) <= fuel)%nat ->
    x ∈ vector_loop fuel i end_ stride <->
    exists t : Z, 0 <= t /\ x = i + t * stride /\ x < end_.
Proof.
  induction fuel as [| fuel IH]; intros i x Hi Hend Hstride Hfuel.
  - cbn [vector_loop]. rewrite elem_of_nil. split; [tauto |].
    intros (t & Ht & -> & Hlt). nia.
  - cbn [vector_loop]. rewrite (size_t_wrap_small end_) by lia.
    destruct (i <? end_) eqn:Hlt.
    + apply Z.ltb_lt in Hlt. rewrite size_t_wrap_small by lia.
      rewrite elem_of_cons, IH by lia. split.
      * intros [-> | (t & Ht & -> & Hx)].
        -- exists 0. lia.
        -- exists (t + 1). nia.
      * intros (t & Ht & -> & Hx).
        destruct (Z.eq_dec t 0) as [-> | Hne]; [left; lia |].
        right. exists (t - 1). nia.
    + apply Z.ltb_ge in Hlt. rewrite elem_of_nil. split; [tauto |].
      intros (t & Ht & -> & Hx). nia.
Qed.






(** X16: every store of 16 bytes in one piece is at a multiple of 16 bytes from
    the start of the parameter, and lies within the shard. *)
Theorem vector_stores_aligned :
  forall (fuel : nat) (shardLen dstOff groupSize localTid i : Z),
    shard_in_range shardLen dstOff groupSize ->
    0 <= localTid < groupSize ->
    (Z.to_nat shardLen <= fuel)%nat ->
    i ∈ vector_starts fuel shardLen dstOff groupSize localTid ->
    (dstOff + i) mod 16 = 0 /\ 0 <= i /\ i + 16 <= shardLen.
Proof.
  intros fuel shardLen dstOff groupSize localTid i (Hlen & Hdst & Hgroup) Htid Hfuel Hi.
  destruct (alignOff_spec dstOff Hdst) as [Halign Hmod0].
  destruct (end_of_spec shardLen (alignOff_of dstOff) ltac:(lia) Halign)
    as (Hmod & Hend_ge & Hend_le & Hend_eq).
  unfold vector_starts, BYTES_PER_THREAD in Hi.
  set (alignOff := alignOff_of dstOff) in *.
  set (end_ := end_of shardLen alignOff) in *.
  assert (Hend : 0 <= end_ < 2 ^ 51 /\ (alignOff <= shardLen \/ end_ = alignOff)).
  { destruct (Z_le_gt_dec alignOff shardLen); [specialize (Hend_le ltac:(lia)) |
                                                specialize (Hend_eq ltac:(lia))]; lia. }
  rewrite (int64_wrap_small (localTid * 16)) in Hi by lia.
  rewrite (int64_wrap_small (alignOff + localTid * 16)) in Hi by lia.
  rewrite (int64_wrap_small (groupSize * 16)) in Hi by lia.
  rewrite (size_t_wrap_small (alignOff + localTid * 16)) in Hi by lia.
  apply vector_loop_elem in Hi; [| lia | lia | lia | lia].
  destruct Hi as (t & Ht & -> & Hlt).
  apply Z.mod_divide in Hmod; [| lia]. destruct Hmod as [pieces Hpieces].
  apply Z.mod_divide in Hmod0; [| lia]. destruct Hmod0 as [base Hbase].
  split.
  - replace (dstOff + (alignOff + localTid * 16 + t * (groupSize * 16)))
      with ((base + localTid + t * groupSize) * 16) by lia.
    apply Z.mod_mul. lia.
  - assert (alignOff <= shardLen) by lia.
    specialize (Hend_le ltac:(lia)). nia.
Qed.

(** ** The loops that search a factor (lines 186-192 and 209-214) *)

(** For [a] not negative and [b] positive, [divUp a b] is at most [c] exactly
    when [c] times [b] covers [a]. *)
Lemma divUp_le_iff (a b c : Z) :
  0 <= a -> 0 < b -> a + b <= 2 ^ 63 ->
  divUp a b <= c <-> a <= c * b.
Proof.
  intros Ha Hb Hsum. pose proof (divUp_bounds a b Ha Hb Hsum) as Hceil.
  split; intros Hle; nia.
Qed.

Lemma iterFactor_loop_inv (totalSize blockSize : Z) (fuel : nat) :
  forall iterFactor : Z,
    0 <= totalSize < 2 ^ 62 ->
    MIN_NUM_THREADS <= blockSize <= MAX_NUM_THREADS ->
    1 <= iterFactor <= totalSize / (blockSize * 16 * 6048) + 1 ->
    (Z.to_nat (totalSize / (blockSize * 16 * 6048) + 1 - iterFactor) < fuel)%nat ->
    (forall k : Z, 1 <= k < iterFactor ->
        max_blocks < divUp totalSize (blockSize * BYTES_PER_THREAD * k)) ->
    exists result : Z,
      iterFactor_loop fuel totalSize blockSize iterFactor = Some result /\
      1 <= result /\
      divUp totalSize (blockSize * BYTES_PER_THREAD * result) <= max_blocks /\
      (forall k : Z, 1 <= k < result ->
          max_blocks < divUp totalSize (blockSize * BYTES_PER_THREAD * k)).
Proof.
  unfold MIN_NUM_THREADS, MAX_NUM_THREADS, BYTES_PER_THREAD, max_blocks.
  induction fuel as [| fuel IH]; intros iterFactor Htotal Hbs Hit Hfuel Hbelow; [lia |].
  cbn [iterFactor_loop]. unfold BYTES_PER_THREAD, max_blocks.
  pose proof (Z.div_mod totalSize (blockSize * 16 * 6048) ltac:(lia)) as Hdm.
  pose proof (Z.mod_pos_bound totalSize (blockSize * 16 * 6048) ltac:(lia)) as Hmod.
  assert (Hq : 0 <= totalSize / (blockSize * 16 * 6048)) by (apply Z.div_pos; lia).
  revert IH Hit Hfuel Hdm Hq.
  generalize (totalSize / (blockSize * 16 * 6048)) as q. intros q IH Hit Hfuel Hdm Hq.
  assert (Hper : 0 < blockSize * 16 * iterFactor < 2 ^ 62) by nia.
  rewrite (int64_wrap_small (blockSize * 16)) by lia.
  rewrite (int64_wrap_small (blockSize * 16 * iterFactor)) by lia.
  rewrite (int64_wrap_small (iterFactor + 1)) by lia.
  destruct (6048 <? divUp totalSize (blockSize * 16 * iterFactor)) eqn:Hcmp.
  - apply Z.ltb_lt in Hcmp.
    assert (Hnot_last : iterFactor <= q).
    { destruct (Z_le_gt_dec iterFactor q) as [Hle | Hgt]; [exact Hle | exfalso].
      assert (divUp totalSize (blockSize * 16 * iterFactor) <= 6048); [| lia].
      apply divUp_le_iff; [lia | lia | lia |]. nia. }
    destruct (IH (iterFactor + 1) Htotal Hbs ltac:(lia) ltac:(lia))
      as (result & Hloop & Hge & Hle & Hleast).
    { intros k Hk. destruct (Z.eq_dec k iterFactor) as [-> | Hne];
        [exact Hcmp | apply Hbelow; lia]. }
    exists result. split; [exact Hloop |]. split; [lia |]. split; assumption.
  - apply Z.ltb_ge in Hcmp. exists iterFactor.
    split; [reflexivity |]. split; [lia |]. split; assumption.
Qed.

(** The result of the loop on [iterFactor]. *)
Lemma iterFactor_loop_result :
  forall (fuel : nat) (totalSize blockSize : Z),
    0 <= totalSize < 2 ^ 62 ->
    MIN_NUM_THREADS <= blockSize <= MAX_NUM_THREADS ->
    (Z.to_nat totalSize < fuel)%nat ->
    exists iterFactor : Z,
      iterFactor_loop fuel totalSize blockSize 1 = Some iterFactor /\
      1 <= iterFactor /\
      divUp totalSize (blockSize * BYTES_PER_THREAD * iterFactor) <= max_blocks /\
      (forall k : Z, 1 <= k < iterFactor ->
          max_blocks < divUp totalSize (blockSize * BYTES_PER_THREAD * k)).
Proof.
  intros fuel totalSize blockSize Htotal Hbs Hfuel.
  unfold MIN_NUM_THREADS, MAX_NUM_THREADS in Hbs.
  assert (Hq : 0 <= totalSize / (blockSize * 16 * 6048) <= totalSize).
  { split; [apply Z.div_pos; lia |].
    apply Z.div_le_upper_bound; [lia |]. nia. }
  apply iterFactor_loop_inv; try assumption; try lia.
Qed.

(** X17: for a total size in range, the loop that searches [iterFactor] ends,
    given fuel for it, with the least factor, from 1 on, at which
    [divUp(totalSize, blockSize * BYTES_PER_THREAD * iterFactor)] is no more
    than 6048. *)
Theorem iterFactor_loop_least :
  forall (fuel : nat) (totalSize blockSize : Z),
    0 <= totalSize < 2 ^ 62 ->
    MIN_NUM_THREADS <= blockSize <= MAX_NUM_THREADS ->
    (Z.to_nat totalSize < fuel)%nat ->
    exists iterFactor : Z,
      iterFactor_loop fuel totalSize blockSize 1 = Some iterFactor /\
      1 <= iterFactor /\
      divUp totalSize (blockSize * BYTES_PER_THREAD * iterFactor) <= max_blocks /\
      (forall k : Z, 1 <= k < iterFactor ->
          max_blocks < divUp totalSize (blockSize * BYTES_PER_THREAD * k)).
Proof. exact iterFactor_loop_result. Qed.

Lemma ranksPerBlock_loop_inv (numBlocks worldSize : Z) (fuel : nat) :
  forall ranksPerBlock : Z,
    0 <= numBlocks < 2 ^ 31 -> 1 <= worldSize < 2 ^ 31 ->
    1 <= ranksPerBlock <= worldSize ->
    (Z.to_nat (worldSize - ranksPerBlock) < fuel)%nat ->
    (forall k : Z, 1 <= k < ranksPerBlock ->
        max_blocks < numBlocks * (worldSize / k)) ->
    exists result : Z,
      ranksPerBlock_loop fuel numBlocks worldSize ranksPerBlock = Some result /\
      1 <= result <= worldSize /\
      (numBlocks * (worldSize / result) <= max_blocks \/ result = worldSize) /\
      (forall k : Z, 1 <= k < result ->
          max_blocks < numBlocks * (worldSize / k)).
Proof.
  unfold max_blocks.
  induction fuel as [| fuel IH]; intros r Hnb Hws Hr Hfuel Hbelow; [lia |].
  cbn [ranksPerBlock_loop]. unfold max_blocks.
  rewrite Z.quot_div_nonneg by lia.
  assert (Hdiv : 0 <= worldSize / r <= worldSize).
  { split; [apply Z.div_pos; lia |].
    apply Z.div_le_upper_bound; [lia |]. nia. }
  rewrite (int64_wrap_small (numBlocks * (worldSize / r))) by nia.
  rewrite (int64_wrap_small (r + 1)) by lia.
  destruct (6048 <? numBlocks * (worldSize / r)) eqn:Hcmp;
    destruct (r <? worldSize) eqn:Hlt; cbn [andb];
    rewrite ?Z.ltb_lt, ?Z.ltb_ge in *.
  - destruct (IH (r + 1) Hnb Hws ltac:(lia) ltac:(lia))
      as (result & Hloop & Hrange & Hstop & Hleast).
    { intros k Hk. destruct (Z.eq_dec k r) as [-> | Hne];
        [exact Hcmp | apply Hbelow; lia]. }
    exists result. split; [exact Hloop |]. split; [lia |]. split; assumption.
  - exists r. split; [reflexivity |]. split; [lia |]. split; [right; lia | assumption].
  - exists r. split; [reflexivity |]. split; [lia |]. split; [left; lia | assumption].
  - exists r. split; [reflexivity |]. split; [lia |]. split; [left; lia | assumption].
Qed.

(** The result of the loop on [ranksPerBlock]. *)
Lemma ranksPerBlock_loop_result :
  forall (fuel : nat) (numBlocks worldSize : Z),
    0 <= numBlocks < 2 ^ 31 -> 1 <= worldSize < 2 ^ 31 ->
    (Z.to_nat worldSize <= fuel)%nat ->
    exists ranksPerBlock : Z,
      ranksPerBlock_loop fuel numBlocks worldSize 1 = Some ranksPerBlock /\
      1 <= ranksPerBlock <= worldSize /\
      (numBlocks * (worldSize / ranksPerBlock) <= max_blocks
       \/ ranksPerBlock = worldSize) /\
      (forall k : Z, 1 <= k < ranksPerBlock ->
          max_blocks < numBlocks * (worldSize / k)).
Proof.
  intros fuel numBlocks worldSize Hnb Hws Hfuel.
  apply ranksPerBlock_loop_inv; try assumption; lia.
Qed.

(** X18: for a positive world size, the loop that searches [ranksPerBlock] ends,
    given fuel for it, between 1 and [worldSize], at the least number at which
    the grid has no more than 6048 blocks, or at [worldSize] when none has. *)
Theorem ranksPerBlock_loop_least :
  forall (fuel : nat) (numBlocks worldSize : Z),
    0 <= numBlocks < 2 ^ 31 -> 1 <= worldSize < 2 ^ 31 ->
    (Z.to_nat worldSize <= fuel)%nat ->
    exists ranksPerBlock : Z,
      ranksPerBlock_loop fuel numBlocks worldSize 1 = Some ranksPerBlock /\
      1 <= ranksPerBlock <= worldSize /\
      (numBlocks * (worldSize / ranksPerBlock) <= max_blocks
       \/ ranksPerBlock = worldSize) /\
      (forall k : Z, 1 <= k < ranksPerBlock ->
          max_blocks < numBlocks * (worldSize / k)).
Proof. exact ranksPerBlock_loop_result. Qed.

(** ** The ranks of a block (line 61) *)

Lemma rank_loop_elem (worldSize step : Z) (fuel : nat) :
  forall rank x : Z,
    0 <= rank -> 1 <= step -> worldSize < 2 ^ 31 -> rank < 2 ^ 32 -> step < 2 ^ 31 ->
    (Z.to_nat (worldSize - rank) <= fuel)%nat ->
    x ∈ rank_loop fuel rank worldSize step <->
    exists t : Z, 0 <= t /\ x = rank + t * step /\ x < worldSize.
Proof.
  induction fuel as [| fuel IH]; intros rank x Hrank Hstep Hws Hrank' Hstep' Hfuel.
  - cbn [rank_loop]. rewrite elem_of_nil. split; [tauto |].
    intros (t & Ht & -> & Hlt). nia.
  - cbn [rank_loop]. destruct (rank <? worldSize) eqn:Hlt.
    + apply Z.ltb_lt in Hlt. rewrite int64_wrap_small by lia.
      rewrite elem_of_cons, IH by lia. split.
      * intros [-> | (t & Ht & -> & Hx)]; [exists 0; lia | exists (t + 1); nia].
      * intros (t & Ht & -> & Hx).
        destruct (Z.eq_dec t 0) as [-> | Hne]; [left; lia |].
        right. exists (t - 1). nia.
    + apply Z.ltb_ge in Hlt. rewrite elem_of_nil. split; [tauto |].
      intros (t & Ht & -> & Hx). nia.
Qed.

(** The rows of blocks share the ranks. *)
Lemma rank_loop_share :
  forall (fuel : nat) (worldSize ranksPerBlock : Z),
    1 <= ranksPerBlock <= worldSize -> worldSize < 2 ^ 31 ->
    (Z.to_nat worldSize <= fuel)%nat ->
    let step := Z.quot worldSize ranksPerBlock in
    1 <= step /\
    (forall first rank : Z,
        0 <= first < step ->
        rank ∈ rank_loop fuel first worldSize step -> 0 <= rank < worldSize) /\
    (forall rank : Z,
        0 <= rank < worldSize ->
        exists first : Z,
          0 <= first < step /\ rank ∈ rank_loop fuel first worldSize step) /\
    (forall first1 first2 rank : Z,
        0 <= first1 < step -> 0 <= first2 < step ->
        rank ∈ rank_loop fuel first1 worldSize step ->
        rank ∈ rank_loop fuel first2 worldSize step ->
        first1 = first2).
Proof.
  intros fuel worldSize ranksPerBlock Hr Hws Hfuel step. unfold step.
  rewrite Z.quot_div_nonneg by lia.
  assert (Hstep : 1 <= worldSize / ranksPerBlock <= worldSize).
  { split; [apply Z.div_le_lower_bound; lia |].
    apply Z.div_le_upper_bound; [lia |]. nia. }
  revert Hstep. generalize (worldSize / ranksPerBlock) as rows. intros rows Hstep.
  split; [lia |]. split; [| split].
  - intros first rank Hfirst Hin.
    apply rank_loop_elem in Hin; [| lia ..].
    destruct Hin as (t & Ht & -> & Hlt). nia.
  - intros rank Hrank.
    pose proof (Z.div_mod rank rows ltac:(lia)) as Hdm.
    pose proof (Z.mod_pos_bound rank rows ltac:(lia)) as Hmod.
    assert (0 <= rank / rows) by (apply Z.div_pos; lia).
    exists (rank mod rows). split; [lia |].
    apply rank_loop_elem; [lia .. |].
    exists (rank / rows). lia.
  - intros first1 first2 rank Hf1 Hf2 Hin1 Hin2.
    apply rank_loop_elem in Hin1; [| lia ..].
    apply rank_loop_elem in Hin2; [| lia ..].
    destruct Hin1 as (t1 & Ht1 & -> & _). destruct Hin2 as (t2 & Ht2 & Heq & _).
    assert (t1 = t2) by nia. nia.
Qed.

(** X19: with [ranksPerBlock] between 1 and [worldSize], the rows of blocks, one
    for each first rank from 0 to [worldSize / ranksPerBlock - 1], share the
    ranks: a block visits ranks of the world only, and every rank of the world
    is visited by the blocks of one row and no other. *)
Theorem rank_loop_partition :
  forall (fuel : nat) (worldSize ranksPerBlock : Z),
    1 <= ranksPerBlock <= worldSize -> worldSize < 2 ^ 31 ->
    (Z.to_nat worldSize <= fuel)%nat ->
    let step := Z.quot worldSize ranksPerBlock in
    1 <= step /\
    (forall first rank : Z,
        0 <= first < step ->
        rank ∈ rank_loop fuel first worldSize step -> 0 <= rank < worldSize) /\
    (forall rank : Z,
        0 <= rank < worldSize ->
        exists first : Z,
          0 <= first < step /\ rank ∈ rank_loop fuel first worldSize step) /\
    (forall first1 first2 rank : Z,
        0 <= first1 < step -> 0 <= first2 < step ->
        rank ∈ rank_loop fuel first1 worldSize step ->
        rank ∈ rank_loop fuel first2 worldSize step ->
        first1 = first2).
Proof. exact rank_loop_share. Qed.

(** ** A thread of the kernel *)


Lemma total_cons (x : Z) (l : list Z) : total (x :: l) = x + total l.
Proof. reflexivity. Qed.

Lemma total_take_le (dims : list Z) (i : nat) (d : Z) :
  Forall (fun x => 1 <= x) dims -> dims !! i = Some d ->
  0 <= total (take i dims) /\
  total (take (S i) dims) = total (take i dims) + d /\
  total (take i dims) + d <= total dims.
Proof.
  intros Hdims. revert i.
  induction Hdims as [| x l Hx Hl IH]; intros [| i] Hi; cbn in Hi; try discriminate.
  - injection Hi as ->.
    assert (0 <= total l) as Hnn.
    { apply total_nonneg. eapply Forall_impl; [exact Hl |]. cbn. intros; lia. }
    change (take 0 (d :: l)) with (@nil Z).
    change (take 1 (d :: l)) with (d :: take 0 l).
    rewrite take_0, !total_cons. change (total []) with 0. lia.
  - destruct (IH i Hi) as (H0 & HS & Hle).
    change (take (S (S i)) (x :: l)) with (x :: take (S i) l).
    change (take (S i) (x :: l)) with (x :: take i l).
    rewrite !total_cons. lia.
Qed.

Lemma total_ge_length (dims : list Z) :
  Forall (fun x => 1 <= x) dims -> Z.of_nat (length dims) <= total dims.
Proof.
  induction 1 as [| x l Hx Hl IH]; [reflexivity |].
  rewrite total_cons. cbn [length]. lia.
Qed.












(** ** The host function (lines 145-241) *)

(** The running sums of the block counts stay below what whole blocks of the
    shards take, plus one block for each parameter. *)
Lemma cums_upper (per : Z) (dims cums : list Z) :
  0 < per -> Forall (fun d => 1 <= d) dims -> total dims + per <= 2 ^ 63 ->
  cums !! 0%nat = Some 0 ->
  (forall (i : nat) (d : Z),
      dims !! i = Some d ->
      exists lo hi : Z,
        cums !! i = Some lo /\ cums !! S i = Some hi /\ hi - lo = divUp d per) ->
  forall (j : nat) (c : Z),
    (j <= length dims)%nat -> cums !! j = Some c ->
    (c - Z.of_nat j) * per <= total (take j dims).
Proof.
  intros Hper Hdims Hrange Hfirst Hgroups.
  induction j as [| j IH]; intros c Hj Hc.
  - rewrite Hfirst in Hc. injection Hc as <-. rewrite take_0. cbn. lia.
  - destruct (lookup_lt_is_Some_2 dims j ltac:(lia)) as [d Hd].
    destruct (Hgroups j d Hd) as (lo & hi & Hlo & Hhi & Hdiff).
    rewrite Hhi in Hc. injection Hc as <-.
    pose proof (IH lo ltac:(lia) Hlo) as IHlo.
    destruct (total_take_le dims j d Hdims Hd) as (Hpre0 & HpreS & Hprele).
    assert (1 <= d) as Hd1.
    { rewrite Forall_forall in Hdims. apply Hdims.
      eapply list_elem_of_lookup_2. exact Hd. }
    pose proof (divUp_bounds d per ltac:(lia) Hper ltac:(lia)) as Hceil.
    rewrite HpreS. nia.
Qed.

(** X22: on parameters and an all-gather result that pass the checks, with
    sizes in range, [fsdpAllGatherCopyOut] reaches the launch.  The tables it
    passes to the kernel are those the kernel relies on ([launch_ok]); the
    shard of a parameter is its size over the number of ranks, and the shards
    of all ranks fill the all-gather result; the grid has one row of blocks
    for each first rank; and a row has at most [max_blocks] blocks, and one
    more for each parameter. *)
Theorem fsdpAllGatherCopyOut_launch_ok :
  forall (mean : list Z -> Z) (fuel : nat) (params : list Tensor)
         (allGatherRes : Tensor) (worldSize : Z)
         (paramPtrs shardDims dimCumSums : list Z),
    0 < worldSize < 2 ^ 31 ->
    sizes_in_range params ->
    0 <= nbytes allGatherRes < 2 ^ 50 ->
    0 < Z.of_nat (length params) < 2 ^ 29 ->
    (Z.to_nat (nbytes allGatherRes) < fuel)%nat ->
    shard_dims params allGatherRes worldSize
      = Some (paramPtrs, shardDims, dimCumSums) ->
    exists launch : Launch,
      fsdpAllGatherCopyOut mean fuel params allGatherRes worldSize = Some launch /\
      launch_ok shardDims (arg_blockOffsetToParamIdx launch)
        (arg_blockCumSums launch) (arg_shardDimCumSums launch)
        worldSize (arg_ranksPerBlock launch) (threads_x launch) /\
      arg_paramPtrs launch = data_ptr <$> params /\
      Forall2 (fun t d => d * worldSize = nbytes t) params shardDims /\
      arg_shardDimSum launch = total shardDims /\
      arg_totalSize launch = total shardDims * worldSize /\
      arg_worldSize launch = worldSize /\
      arg_blockDimSum launch
        = Z.of_nat (length (arg_blockOffsetToParamIdx launch)) /\
      blocks_x launch
        = arg_blockDimSum launch * Z.quot worldSize (arg_ranksPerBlock launch) /\
      arg_blockDimSum launch <= max_blocks + Z.of_nat (length params).
Proof.
  intros mean fuel params allGatherRes worldSize paramPtrs shardDims dimCumSums
         Hws Hsizes Hres Hcount Hfuel Hshard.
  destruct (shard_dims_facts params allGatherRes worldSize paramPtrs shardDims
              dimCumSums ltac:(lia) Hsizes ltac:(lia) Hshard)
    as (Hptrs & Hall & Hdlen & Hdcums & Htotal).
  assert (Forall (fun d => 1 <= d) shardDims) as Hdims.
  { clear - Hall. induction Hall as [| t d ts ds [Hd _] _ IH]; constructor; assumption. }
  assert (Forall2 (fun t d => d * worldSize = nbytes t) params shardDims) as Hall'.
  { eapply Forall2_impl; [exact Hall |]. cbn. intros t d [_ Heq]. exact Heq. }
  pose proof (Forall2_length _ _ _ Hall) as Hlen.
  pose proof (total_ge_length shardDims Hdims) as Hge.
  assert (total shardDims <= nbytes allGatherRes) as Hle by nia.
  unfold fsdpAllGatherCopyOut. rewrite Hshard. cbn [mbind option_bind].
  (* the mean *)
  unfold geometricMean.
  destruct (0 <? Z.of_nat (length shardDims)) eqn:Hnonempty;
    [| apply Z.ltb_ge in Hnonempty; lia].
  cbn [negb].
  assert (forallb (fun num => 0 <? num) shardDims = true) as ->.
  { apply forallb_forall. intros d Hd. apply Z.ltb_lt.
    rewrite Forall_forall in Hdims. apply list_elem_of_In in Hd.
    specialize (Hdims d Hd). cbn in Hdims. lia. }
  cbn [mbind option_bind].
  destruct (pick_blockSize_clamped (mean shardDims)) as [Hbs _].
  generalize dependent (pick_blockSize (mean shardDims)). intros blockSize Hbs.
  pose proof Hbs as Hbs'. unfold MIN_NUM_THREADS, MAX_NUM_THREADS in Hbs'.
  (* the iteration factor *)
  change (numel allGatherRes * element_size allGatherRes) with (nbytes allGatherRes).
  rewrite (int64_wrap_small (nbytes allGatherRes)) by lia.
  destruct (iterFactor_loop_result fuel (nbytes allGatherRes) blockSize
              ltac:(lia) Hbs Hfuel)
    as (iterFactor & -> & Hit1 & Hitle & Hitleast).
  cbn [mbind option_bind].
  unfold BYTES_PER_THREAD in Hitle, Hitleast.
  assert (iterFactor < 2 ^ 40) as Hit.
  { destruct (Z_lt_le_dec iterFactor (2 ^ 40)) as [Hlt | Hge']; [exact Hlt |].
    exfalso.
    pose proof (Hitleast (2 ^ 39) ltac:(lia)) as Hover.
    assert (divUp (nbytes allGatherRes) (blockSize * 16 * 2 ^ 39) <= 1) as Hone.
    { apply divUp_le_iff; lia. }
    unfold max_blocks in Hover. lia. }
  apply (divUp_le_iff (nbytes allGatherRes) (blockSize * 16 * iterFactor)
           max_blocks ltac:(lia) ltac:(nia) ltac:(nia)) in Hitle.
  (* the block tables *)
  unfold block_tables, BYTES_PER_THREAD.
  rewrite (int64_wrap_small (blockSize * 16)) by lia.
  rewrite (int64_wrap_small (blockSize * 16 * iterFactor)) by nia.
  destruct (block_tables_loop_inv (blockSize * 16 * iterFactor) shardDims 0 [] [0])
    as (table & cums & Hloop & Hagree & Hkeep & Hgroups).
  { nia. }
  { exact Hdims. }
  { cbn [length]. lia. }
  { split; [reflexivity |]. split; [reflexivity |].
    intros o idx Ho. rewrite lookup_nil in Ho. discriminate. }
  change (Z.of_nat 0) with 0 in Hloop. rewrite Hloop.
  cbn [mbind option_bind Nat.add] in *.
  pose proof Hagree as (Hclen & Hclast & Htab).
  assert (cums !! 0%nat = Some 0) as Hfirst
    by (rewrite (Hkeep 0%nat ltac:(lia)); reflexivity).
  rewrite (last_lookup cums), Hclen. cbn [Nat.pred]. rewrite Hclast.
  cbn [mbind option_bind].
  pose proof (cums_upper (blockSize * 16 * iterFactor) shardDims cums
                ltac:(nia) Hdims ltac:(nia) Hfirst Hgroups
                (length shardDims) _ ltac:(lia) Hclast) as Hupper.
  rewrite firstn_all in Hupper.
  assert (Z.of_nat (length table) <= max_blocks + Z.of_nat (length params))
    as Hgrid.
  { rewrite <- Hlen in Hupper. unfold max_blocks in *. nia. }
  unfold max_blocks in Hgrid.
  (* the ranks of a block *)
  destruct (ranksPerBlock_loop_result fuel (Z.of_nat (length table)) worldSize
              ltac:(lia) ltac:(lia) ltac:(nia))
    as (ranksPerBlock & -> & Hrpb & Hfew & _).
  cbn [mbind option_bind].
  rewrite (last_lookup dimCumSums), Hdlen. cbn [Nat.pred].
  rewrite (Hdcums (length shardDims) ltac:(lia)), firstn_all.
  cbn [mbind option_bind].
  eexists. split; [reflexivity |].
  cbn [arg_blockOffsetToParamIdx arg_blockCumSums arg_shardDimCumSums
       arg_ranksPerBlock threads_x arg_paramPtrs arg_shardDimSum arg_totalSize
       arg_worldSize arg_blockDimSum blocks_x].
  assert (1 <= Z.quot worldSize ranksPerBlock <= worldSize) as Hstep.
  { rewrite Z.quot_div_nonneg by lia. split.
    - apply Z.div_le_lower_bound; lia.
    - apply Z.div_le_upper_bound; nia. }
  split; [| split; [exact Hptrs |]; split; [exact Hall' |];
            split; [reflexivity |]; split; [lia |]; split; [reflexivity |];
            split; [reflexivity |]; split; [| unfold max_blocks; lia]].
  - constructor.
    + exact Hdims.
    + lia.
    + exact Hagree.
    + exact Hfirst.
    + intros i d Hd. destruct (Hgroups i d Hd) as (lo & hi & Hlo & Hhi & Hdiff).
      exists lo, hi. split; [exact Hlo |]. split; [exact Hhi |].
      assert (1 <= d) as Hd1.
      { rewrite Forall_forall in Hdims. apply Hdims.
        eapply list_elem_of_lookup_2. exact Hd. }
      destruct (total_take_le shardDims i d Hdims Hd) as (Hpre0 & _ & Hprele).
      pose proof (mul_bounds (blockSize * 16) (iterFactor - 1)
                    (blockSize * 16) (iterFactor - 1) ltac:(lia) ltac:(lia)) as Hper.
      pose proof (mul_bounds (blockSize * 16) iterFactor (1024 * 16) (2 ^ 40)
                    ltac:(lia) ltac:(lia)) as Hper'.
      pose proof (divUp_bounds d (blockSize * 16 * iterFactor)
                    ltac:(lia) ltac:(lia) ltac:(lia)) as Hceil.
      rewrite Hdiff.
      destruct (Z_lt_le_dec (divUp d (blockSize * 16 * iterFactor)) 1)
        as [Hnone | Hsome]; [exfalso | exact Hsome].
      pose proof (mul_bounds (- divUp d (blockSize * 16 * iterFactor))
                    (blockSize * 16 * iterFactor)
                    (- divUp d (blockSize * 16 * iterFactor))
                    (blockSize * 16 * iterFactor) ltac:(lia) ltac:(lia)) as Hneg.
      lia.
    + lia.
    + exact Hdlen.
    + exact Hdcums.
    + lia.
    + exact Hbs.
  - rewrite int64_wrap_small by nia.
    apply Z.mod_small. split; [nia |].
    rewrite Z.quot_div_nonneg by lia.
    destruct Hfew as [Hfew | ->]; [unfold max_blocks in Hfew; lia |].
    rewrite Z.div_same by lia. lia.
Qed.

(** ** Packing the tables (lines 116-143) *)

Lemma pack_numel (vecs : list (list Z)) (numel : nat) :
  foldl (fun numel vec => numel + length vec)%nat numel vecs
  = (numel + length (concat vecs))%nat.
Proof.
  revert numel. induction vecs as [| vec rest IH]; intros numel; cbn [foldl concat].
  - cbn. lia.
  - rewrite IH, length_app. lia.
Qed.

Lemma pack_copy_spec (rest : list (list Z)) :
  forall pre packed : list Z,
    length packed = (length pre + length (concat rest))%nat ->
    take (length pre) packed = pre ->
    pack_copy rest packed (length pre) = Some (pre ++ concat rest)%list.
Proof.
  induction rest as [| vec rest IH]; intros pre packed Hlen Hpre.
  - cbn [pack_copy concat]. cbn [concat length] in Hlen.
    rewrite app_nil_r. rewrite take_ge in Hpre by lia. rewrite Hpre. reflexivity.
  - cbn [pack_copy concat]. cbn [concat] in Hlen. rewrite length_app in Hlen.
    unfold memcpy.
    destruct (length pre + length vec <=? length packed)%nat eqn:Hfit;
      [| apply Nat.leb_gt in Hfit; lia].
    cbn [mbind option_bind]. rewrite Hpre.
    rewrite <- length_app.
    rewrite (IH (pre ++ vec)%list).
    + rewrite <- app_assoc. reflexivity.
    + rewrite !length_app, length_drop. lia.
    + rewrite app_assoc. apply take_app_length.
Qed.

Lemma pack_ptrs_spec (vecs : list (list Z)) :
  forall (offset i : nat) (vec : list Z),
    vecs !! i = Some vec ->
    pack_ptrs vecs offset !! i
    = Some (offset + length (concat (take i vecs)))%nat.
Proof.
  induction vecs as [| v rest IH]; intros offset [| i] vec Hi; cbn in Hi;
    try discriminate.
  - cbn. f_equal. lia.
  - cbn [pack_ptrs lookup list_lookup take concat].
    change ((offset :: pack_ptrs rest (offset + length v)) !! S i)
      with (pack_ptrs rest (offset + length v) !! i).
    rewrite (IH _ i vec Hi), length_app. f_equal. lia.
Qed.

(** X23: [pack] never copies outside of the tensor it allocated.  The packed
    tensor is the vectors one after the other, whatever the memory held
    before; there is one pointer for each vector, and reading as many
    elements as a vector has from its pointer on gives the vector back. *)
Theorem pack_round_trip :
  forall (empty : nat -> list Z) (vecs : list (list Z)),
    (forall n : nat, length (empty n) = n) ->
    exists (packed : list Z) (ptrs : list nat),
      pack empty vecs = Some (packed, ptrs) /\
      packed = concat vecs /\
      length ptrs = length vecs /\
      forall (i : nat) (vec : list Z),
        vecs !! i = Some vec ->
        exists ptr : nat,
          ptrs !! i = Some ptr /\
          take (length vec) (drop ptr packed) = vec.
Proof.
  intros empty vecs Hempty.
  exists (concat vecs), (pack_ptrs vecs 0).
  split; [| split; [reflexivity |]; split].
  - unfold pack. rewrite pack_numel. cbn [Nat.add].
    pose proof (pack_copy_spec vecs [] (empty (length (concat vecs)))) as Hcopy.
    cbn [length app Nat.add] in Hcopy.
    rewrite Hcopy; [reflexivity | apply Hempty | apply take_0].
  - generalize 0%nat. induction vecs as [| v rest IH]; intros offset;
      cbn [pack_ptrs length]; [reflexivity |]. rewrite IH. reflexivity.
  - intros i vec Hi. eexists. split; [apply (pack_ptrs_spec vecs 0 i vec Hi) |].
    cbn [Nat.add].
    rewrite <- (take_drop_middle vecs i vec Hi) at 2.
    rewrite concat_app. cbn [concat].
    rewrite drop_app_length. apply take_app_length.
Qed.

(** X24: without parameters the function stops at a check, at the latest at
    that of [geometricMean] on the number of its arguments: nothing is
    launched. *)
Theorem fsdpAllGatherCopyOut_no_params :
  forall (mean : list Z -> Z) (fuel : nat) (allGatherRes : Tensor) (worldSize : Z),
    fsdpAllGatherCopyOut mean fuel [] allGatherRes worldSize = None.
Proof.
  intros mean fuel allGatherRes worldSize.
  unfold fsdpAllGatherCopyOut, shard_dims.
  cbn [shard_dims_loop mbind option_bind last].
  destruct (negb (is_cuda allGatherRes)); [reflexivity |].
  destruct (negb (is_non_overlapping_and_dense allGatherRes)); [reflexivity |].
  cbn [mbind option_bind last].
  destruct (negb (int64_wrap (0 * worldSize)
                  =? int64_wrap (numel allGatherRes * element_size allGatherRes)));
    reflexivity.
Qed.

(** ** A run *)

Lemma sample_sizes_in_range : sizes_in_range sample_params.
Proof.
  split; [| vm_compute; reflexivity].
  repeat constructor; cbn; lia.
Qed.


Lemma pick_blockSize_covers_mean_witness :
  Z.min 8 (MAX_NUM_THREADS * BYTES_PER_THREAD) <= pick_blockSize 8 * BYTES_PER_THREAD.
Proof. apply (pick_blockSize_covers_mean 8). lia. Defined.

Lemma shard_dims_sound_witness :
  [4096; 8192] = data_ptr <$> sample_params /\
  Forall2 (fun t d => 1 <= d /\ d * 2 = nbytes t) sample_params sample_shardDims /\
  length sample_dimCumSums = S (length sample_shardDims) /\
  (forall j : nat, (j <= length sample_shardDims)%nat ->
      sample_dimCumSums !! j = Some (total (take j sample_shardDims))) /\
  total sample_shardDims * 2 = nbytes sample_allGatherRes.
Proof.
  apply (shard_dims_sound sample_params sample_allGatherRes 2
           [4096; 8192] sample_shardDims sample_dimCumSums).
  - lia.
  - exact sample_sizes_in_range.
  - vm_compute. split; [discriminate | reflexivity].
  - vm_compute. reflexivity.
Defined.

Lemma block_tables_sound_witness :
  exists table cums : list Z,
    block_tables sample_shardDims 128 1 = Some (table, cums) /\
    tables_agree (length sample_shardDims) table cums /\
    cums !! 0%nat = Some 0 /\
    forall (i : nat) (d : Z),
      sample_shardDims !! i = Some d ->
      exists lo hi : Z,
        cums !! i = Some lo /\ cums !! S i = Some hi /\
        1 <= hi - lo /\
        d <= (hi - lo) * (128 * BYTES_PER_THREAD * 1).
Proof.
  apply (block_tables_sound sample_shardDims 128 1).
  - unfold MIN_NUM_THREADS, MAX_NUM_THREADS. lia.
  - lia.
  - repeat constructor; lia.
  - vm_compute. reflexivity.
Defined.



Lemma vector_stores_aligned_witness :
  12 ∈ vector_starts 40 40 20 128 0 /\
  (20 + 12) mod 16 = 0 /\ 0 <= 12 /\ 12 + 16 <= 40.
Proof.
  assert (12 ∈ vector_starts 40 40 20 128 0) as Hin
    by (vm_compute; apply list_elem_of_here).
  split; [exact Hin |].
  apply (vector_stores_aligned 40 40 20 128 0 12).
  - unfold shard_in_range. lia.
  - lia.
  - vm_compute. lia.
  - exact Hin.
Defined.

Lemma iterFactor_loop_least_witness :
  exists iterFactor : Z,
    iterFactor_loop 49 48 128 1 = Some iterFactor /\
    1 <= iterFactor /\
    divUp 48 (128 * BYTES_PER_THREAD * iterFactor) <= max_blocks /\
    (forall k : Z, 1 <= k < iterFactor ->
        max_blocks < divUp 48 (128 * BYTES_PER_THREAD * k)).
Proof.
  apply (iterFactor_loop_least 49 48 128).
  - lia.
  - unfold MIN_NUM_THREADS, MAX_NUM_THREADS. lia.
  - vm_compute. lia.
Defined.

Lemma ranksPerBlock_loop_least_witness :
  exists ranksPerBlock : Z,
    ranksPerBlock_loop 8 4000 8 1 = Some ranksPerBlock /\
    1 <= ranksPerBlock <= 8 /\
    (4000 * (8 / ranksPerBlock) <= max_blocks \/ ranksPerBlock = 8) /\
    (forall k : Z, 1 <= k < ranksPerBlock -> max_blocks < 4000 * (8 / k)).
Proof.
  apply (ranksPerBlock_loop_least 8 4000 8).
  - lia.
  - lia.
  - vm_compute. lia.
Defined.

Lemma rank_loop_partition_witness :
  1 <= Z.quot 8 3 /\
  (forall first rank : Z,
      0 <= first < Z.quot 8 3 ->
      rank ∈ rank_loop 8 first 8 (Z.quot 8 3) -> 0 <= rank < 8) /\
  (forall rank : Z,
      0 <= rank < 8 ->
      exists first : Z,
        0 <= first < Z.quot 8 3 /\ rank ∈ rank_loop 8 first 8 (Z.quot 8 3)) /\
  (forall first1 first2 rank : Z,
      0 <= first1 < Z.quot 8 3 -> 0 <= first2 < Z.quot 8 3 ->
      rank ∈ rank_loop 8 first1 8 (Z.quot 8 3) ->
      rank ∈ rank_loop 8 first2 8 (Z.quot 8 3) ->
      first1 = first2).
Proof.
  apply (rank_loop_partition 8 8 3).
  - lia.
  - lia.
  - vm_compute. lia.
Defined.




Lemma fsdpAllGatherCopyOut_launch_ok_witness :
  exists launch : Launch,
    fsdpAllGatherCopyOut sample_mean 49 sample_params sample_allGatherRes 2
      = Some launch /\
    launch_ok sample_shardDims (arg_blockOffsetToParamIdx launch)
      (arg_blockCumSums launch) (arg_shardDimCumSums launch)
      2 (arg_ranksPerBlock launch) (threads_x launch) /\
    arg_paramPtrs launch = data_ptr <$> sample_params /\
    Forall2 (fun t d => d * 2 = nbytes t) sample_params sample_shardDims /\
    arg_shardDimSum launch = total sample_shardDims /\
    arg_totalSize launch = total sample_shardDims * 2 /\
    arg_worldSize launch = 2 /\
    arg_blockDimSum launch
      = Z.of_nat (length (arg_blockOffsetToParamIdx launch)) /\
    blocks_x launch
      = arg_blockDimSum launch * Z.quot 2 (arg_ranksPerBlock launch) /\
    arg_blockDimSum launch <= max_blocks + Z.of_nat (length sample_params).
Proof.
  apply (fsdpAllGatherCopyOut_launch_ok sample_mean 49 sample_params
           sample_allGatherRes 2 [4096; 8192] sample_shardDims sample_dimCumSums).
  - lia.
  - exact sample_sizes_in_range.
  - vm_compute. split; [discriminate | reflexivity].
  - cbn. lia.
  - vm_compute. lia.
  - vm_compute. reflexivity.
Defined.

Lemma pack_round_trip_witness :
  exists (packed : list Z) (ptrs : list nat),
    pack (fun n => replicate n 7) [sample_table; sample_cums; sample_dimCumSums]
      = Some (packed, ptrs) /\
    packed = concat [sample_table; sample_cums; sample_dimCumSums] /\
    length ptrs = length [sample_table; sample_cums; sample_dimCumSums] /\
    forall (i : nat) (vec : list Z),
      [sample_table; sample_cums; sample_dimCumSums] !! i = Some vec ->
      exists ptr : nat,
        ptrs !! i = Some ptr /\ take (length vec) (drop ptr packed) = vec.
Proof.
  apply (pack_round_trip (fun n => replicate n 7)
           [sample_table; sample_cums; sample_dimCumSums]).
  intros n. apply length_replicate.
Defined.

End AllGatherCopyOut_properties.
